(** * slow-redact: a shallow embedding of [index.js]

    The redactor works on JavaScript values that live in a mutable heap:
    objects, arrays, dates and functions have identity and are shared by
    reference, everything else is an immutable scalar.  The embedding keeps
    that heap explicit, so that the copy-on-redact promise of the library is
    a statement about heap locations and not a by-product of functional
    data.

    Scope of the model.  An object is the ordered list of its own enumerable
    properties; an array is its dense list of elements plus such a list.
    Inherited properties and own non-enumerable ones (the prototype chain,
    [length], accessors) are not represented, and numbers are integers. *)

From Stdlib Require Import ZArith String Ascii List Bool Lia.
From Stdlib Require Import DecimalString DecimalNat DecimalFacts.
From stdpp Require Import base option list strings.

Set Warnings "-register-all".

Local Open Scope Z_scope.
Local Open Scope nat_scope.

(** ** Values and the heap *)

Abbreviation loc := nat.

Inductive val : Type :=
| VUndef
| VNull
| VBool (b : bool)
| VNum (n : Z)
| VStr (s : string)
| VRef (l : loc).

(** What a function object does when it is called.  The only function the
    library itself creates is the [restore] closure, which captures the
    snapshot [original]; any other function is opaque to the redactor. *)
Inductive fbody : Type :=
| FRestore (original : val)
| FOpaque.

Inductive shape : Type :=
| SPlain
| SArr (elems : list val)
| SDate (t : Z)
| SFun (body : fbody).

Record obj : Type := Obj { oshape : shape; oprops : list (string * val) }.

Abbreviation heap := (list obj).

Global Instance val_eq_dec : EqDecision val.
Proof. solve_decision. Defined.

Definition empty_obj : obj := Obj SPlain [].

(** A reference that was never allocated reads as an empty object. *)
Definition lookup_obj (h : heap) (l : loc) : obj := default empty_obj (h !! l).

Inductive jstype : Type :=
| TyUndefined | TyObject | TyBoolean | TyNumber | TyString | TyFunction.

Global Instance jstype_eq_dec : EqDecision jstype.
Proof. solve_decision. Defined.

Definition typeof (h : heap) (v : val) : jstype :=
  match v with
  | VUndef => TyUndefined
  | VNull => TyObject
  | VBool _ => TyBoolean
  | VNum _ => TyNumber
  | VStr _ => TyString
  | VRef l => match oshape (lookup_obj h l) with
              | SFun _ => TyFunction
              | _ => TyObject
              end
  end.

(** [typeof v === 'object' && v !== null] *)
Definition is_object (h : heap) (v : val) : bool :=
  match v with
  | VNull => false
  | _ => bool_decide (typeof h v = TyObject)
  end.

(** [v === null || v === undefined] *)
Definition is_nullish (v : val) : bool :=
  match v with
  | VUndef | VNull => true
  | _ => false
  end.

(** [Array.isArray(v)] *)
Definition is_array (h : heap) (v : val) : bool :=
  match v with
  | VRef l => match oshape (lookup_obj h l) with
              | SArr _ => true
              | _ => false
              end
  | _ => false
  end.

(** JavaScript truthiness, for [if (x)] and [x ? a : b]. *)
Definition truthy (v : val) : bool :=
  match v with
  | VUndef | VNull => false
  | VBool b => b
  | VNum n => negb (Z.eqb n 0)
  | VStr s => negb (String.eqb s "")
  | VRef _ => true
  end.

(** ** Property keys *)

Definition string_of_nat (n : nat) : string :=
  NilZero.string_of_uint (Nat.to_uint n).

Definition string_of_Z (n : Z) : string :=
  NilZero.string_of_int (Z.to_int n).

(** A key names an array index when it is the canonical decimal form of a
    natural number: ["0"], ["17"], but not ["007"] or ["+1"]. *)
Definition index_of_key (key : string) : option nat :=
  match NilZero.uint_of_string key with
  | Some d =>
      let n := Nat.of_uint d in
      if String.eqb (string_of_nat n) key then Some n else None
  | None => None
  end.

Fixpoint assoc (key : string) (props : list (string * val)) : option val :=
  match props with
  | [] => None
  | (k, v) :: rest => if String.eqb k key then Some v else assoc key rest
  end.

(** Overwrite an existing property in place, or add a new one last. *)
Fixpoint upsert (key : string) (v : val) (props : list (string * val))
  : list (string * val) :=
  match props with
  | [] => [(key, v)]
  | (k, x) :: rest =>
      if String.eqb k key then (k, v) :: rest else (k, x) :: upsert key v rest
  end.

Definition arr_slot (o : obj) (key : string) : option (list val * nat) :=
  match oshape o, index_of_key key with
  | SArr elems, Some i => if decide (i < length elems) then Some (elems, i) else None
  | _, _ => None
  end.

(** [o[key]] for an object [o] *)
Definition get_own (o : obj) (key : string) : val :=
  match arr_slot o key with
  | Some (elems, i) => default VUndef (elems !! i)
  | None => default VUndef (assoc key (oprops o))
  end.

(** [key in o] for an object [o] *)
Definition has_own (o : obj) (key : string) : bool :=
  match arr_slot o key with
  | Some _ => true
  | None => bool_decide (is_Some (assoc key (oprops o)))
  end.

(** [o[key] = v] for an object [o] *)
Definition set_own (o : obj) (key : string) (v : val) : obj :=
  match arr_slot o key with
  | Some (elems, i) => Obj (SArr (<[i := v]> elems)) (oprops o)
  | None => Obj (oshape o) (upsert key v (oprops o))
  end.

(** ** Outcomes and the state monad *)

Inductive type_error : Type :=
| InOperatorOnNonObject      (* key in 42 *)
| PropertyOfNullish          (* null.x, undefined.x = v *)
| NotCallable                (* calling a value that is not a function *)
| PathsNotArray              (* thrown by slowRedact itself *)
| CircularStructure.         (* JSON.stringify on a cycle *)

Inductive error : Type :=
| TypeError (why : type_error).

Inductive outcome (A : Type) : Type :=
| Ret (a : A)
| Throw (e : error)
| OutOfFuel.
Arguments Ret {A} a.
Arguments Throw {A} e.
Arguments OutOfFuel {A}.

(** The state threaded through a call: the heap, and the journal of the
    calls made to a censor function, oldest first, as (value, path). *)
Record state : Type := State { st_heap : heap; st_calls : list (val * val) }.

Definition M (A : Type) : Type := state -> outcome A * state.

Definition ret {A} (a : A) : M A := fun st => (Ret a, st).

Definition bind {A B} (m : M A) (k : A -> M B) : M B :=
  fun st =>
    match m st with
    | (Ret a, st') => k a st'
    | (Throw e, st') => (Throw e, st')
    | (OutOfFuel, st') => (OutOfFuel, st')
    end.

Notation "'let*' x ':=' m 'in' k" := (bind m (fun x => k))
  (at level 10, x name, m at level 100, k at level 200).

Definition throw {A} (e : error) : M A := fun st => (Throw e, st).
Definition out_of_fuel {A} : M A := fun st => (OutOfFuel, st).

(** Run a computation that only reads the heap. *)
Definition reading {A} (f : heap -> outcome A) : M A :=
  fun st => (f (st_heap st), st).

Definition alloc (o : obj) : M val :=
  fun st => (Ret (VRef (length (st_heap st))),
             State (st_heap st ++ [o]) (st_calls st)).

Definition update_obj (l : loc) (f : obj -> obj) : M unit :=
  fun st => (Ret tt,
             State (<[l := f (lookup_obj (st_heap st) l)]> (st_heap st)) (st_calls st)).

Definition journal (value path : val) : M unit :=
  fun st => (Ret tt, State (st_heap st) (st_calls st ++ [(value, path)])).

Fixpoint for_each {A} (xs : list A) (body : A -> M unit) : M unit :=
  match xs with
  | [] => ret tt
  | x :: rest => let* _ := body x in for_each rest body
  end.

Fixpoint map_m {A B} (f : A -> M B) (xs : list A) : M (list B) :=
  match xs with
  | [] => ret []
  | x :: rest =>
      let* y := f x in
      let* ys := map_m f rest in
      ret (y :: ys)
  end.

(** ** Property access on values *)

Definition char_at (s : string) (key : string) : val :=
  match index_of_key key with
  | Some i => match String.get i s with
              | Some c => VStr (String c EmptyString)
              | None => VUndef
              end
  | None => VUndef
  end.

(** [v[key]] *)
Definition get_prop (h : heap) (v : val) (key : string) : outcome val :=
  match v with
  | VUndef | VNull => Throw (TypeError PropertyOfNullish)
  | VBool _ | VNum _ => Ret VUndef
  | VStr s => Ret (char_at s key)
  | VRef l => Ret (get_own (lookup_obj h l) key)
  end.

(** [key in v]: the right operand must be an object (or a function). *)
Definition has_prop (h : heap) (v : val) (key : string) : outcome bool :=
  match v with
  | VRef l => Ret (has_own (lookup_obj h l) key)
  | _ => Throw (TypeError InOperatorOnNonObject)
  end.

(** [v[key] = x] in sloppy mode: a write to a scalar is dropped, a write to
    [null] or [undefined] throws. *)
Definition set_prop (v : val) (key : string) (x : val) : M unit :=
  match v with
  | VRef l => update_obj l (fun o => set_own o key x)
  | VUndef | VNull => throw (TypeError PropertyOfNullish)
  | _ => ret tt
  end.

(** The keys a [for (const key in v)] loop visits. *)
Definition enum_keys (h : heap) (v : val) : list string :=
  match v with
  | VRef l =>
      let o := lookup_obj h l in
      match oshape o with
      | SArr elems => map string_of_nat (seq 0 (length elems)) ++ map fst (oprops o)
      | _ => map fst (oprops o)
      end
  | _ => []
  end.

(** [v.length] of an array *)
Definition arr_length (h : heap) (v : val) : nat :=
  match v with
  | VRef l => match oshape (lookup_obj h l) with
              | SArr elems => length elems
              | _ => 0
              end
  | _ => 0
  end.

(** [v[i]] and [v[i] = x] with a numeric index [i] below the length *)
Definition arr_get (h : heap) (v : val) (i : nat) : outcome val :=
  get_prop h v (string_of_nat i).

Definition arr_set (v : val) (i : nat) (x : val) : M unit :=
  set_prop v (string_of_nat i) x.

(** ** parsePath *)

Record pstate : Type := PState {
  ps_parts : list string;
  ps_current : string;
  ps_inBrackets : bool;
  ps_inQuotes : bool;
  ps_quoteChar : option ascii
}.

Definition push_char (s : string) (c : ascii) : string :=
  s +:+ String c EmptyString.

(** [if (current) { parts.push(current); current = '' }] *)
Definition flush (parts : list string) (current : string) : list string :=
  if String.eqb current "" then parts else parts ++ [current].

(** The double quote character. *)
Definition dquote : ascii := ascii_of_nat 34.

Definition is_quote (c : ascii) : bool :=
  Ascii.eqb c dquote || Ascii.eqb c "'".

(** One iteration of the scanning loop. *)
Definition parse_step (st : pstate) (char : ascii) : pstate :=
  let '(PState parts current inBrackets inQuotes quoteChar) := st in
  if negb inBrackets && Ascii.eqb char "." then
    PState (flush parts current) "" inBrackets inQuotes quoteChar
  else if Ascii.eqb char "[" then
    PState (flush parts current) "" true inQuotes quoteChar
  else if Ascii.eqb char "]" && inBrackets then
    PState (flush parts current) "" false false quoteChar
  else if is_quote char && inBrackets then
    if negb inQuotes then
      PState parts current inBrackets true (Some char)
    else if bool_decide (quoteChar = Some char) then
      PState parts current inBrackets false None
    else
      PState parts (push_char current char) inBrackets inQuotes quoteChar
  else
    PState parts (push_char current char) inBrackets inQuotes quoteChar.

Fixpoint parse_loop (st : pstate) (path : string) : pstate :=
  match path with
  | EmptyString => st
  | String char rest => parse_loop (parse_step st char) rest
  end.

Definition parse_init : pstate := PState [] "" false false None.

Definition parsePath (path : string) : list string :=
  let st := parse_loop parse_init path in
  flush (ps_parts st) (ps_current st).

(** ** deepClone *)

Fixpoint deepClone (fuel : nat) (v : val) : M val :=
  match fuel with
  | O => out_of_fuel
  | S fuel' =>
      match v with
      | VRef l =>
          let* o := reading (fun h => Ret (lookup_obj h l)) in
          match oshape o with
          | SFun _ => ret v                     (* typeof obj !== 'object' *)
          | SDate t => alloc (Obj (SDate t) []) (* new Date(obj.getTime()) *)
          | SArr elems =>                       (* obj.map(item => deepClone(item)) *)
              let* elems' := map_m (deepClone fuel') elems in
              alloc (Obj (SArr elems') [])
          | SPlain =>
              let* cloned := alloc (Obj SPlain []) in
              let* _ := for_each (map fst (oprops o)) (fun key =>
                          let* x := reading (fun h => get_prop h v key) in
                          let* x' := deepClone fuel' x in
                          set_prop cloned key x') in
              ret cloned
          end
      | _ => ret v                              (* null, or typeof obj !== 'object' *)
      end
  end.

(** ** getValue and setValue *)

Fixpoint getValue (h : heap) (current : val) (parts : list string) : outcome val :=
  match parts with
  | [] => Ret current
  | part :: rest =>
      if is_nullish current then Ret VUndef
      else match get_prop h current part with
           | Ret next => getValue h next rest
           | Throw e => Throw e
           | OutOfFuel => OutOfFuel
           end
  end.

(** The first loop of [setValue]: follow every key but the last.  [None]
    stands for the early [return false]. *)
Fixpoint descend (h : heap) (current : val) (keys : list string)
  : outcome (option val) :=
  match keys with
  | [] => Ret (Some current)
  | key :: rest =>
      match has_prop h current key with
      | Ret true =>
          match get_prop h current key with
          | Ret next =>
              if is_object h next then descend h next rest else Ret None
          | Throw e => Throw e
          | OutOfFuel => OutOfFuel
          end
      | Ret false => Ret None
      | Throw e => Throw e
      | OutOfFuel => OutOfFuel
      end
  end.

(** [parts[parts.length - 1]] used as a property key: on an empty array it
    is [undefined], which names the key ["undefined"]. *)
Definition last_key (parts : list string) : string :=
  default "undefined" (last parts).

Definition is_wildcard (key : string) : bool := String.eqb key "*".

Definition setValue (obj : val) (parts : list string) (value : val) : M bool :=
  let* found := reading (fun h => descend h obj (removelast parts)) in
  match found with
  | None => ret false
  | Some current =>
      let lastKey := last_key parts in
      let* _ :=
        if bool_decide (last parts = Some "*") then
          let* arr := reading (fun h => Ret (is_array h current)) in
          if arr then
            let* n := reading (fun h => Ret (arr_length h current)) in
            for_each (seq 0 n) (fun i => arr_set current i value)
          else
            let* isobj := reading (fun h => Ret (is_object h current)) in
            if isobj then
              let* keys := reading (fun h => Ret (enum_keys h current)) in
              for_each keys (fun key => set_prop current key value)
            else ret tt
        else
          let* present := reading (fun h => has_prop h current lastKey) in
          if present then set_prop current lastKey value else ret tt
      in ret true
  end.

(** ** Censors *)

Inductive censor_t : Type :=
| CensorFun (f : val -> val -> val)   (* typeof censor === 'function' *)
| CensorVal (v : val).

(** [typeof censor === 'function' ? censor(value, path) : censor] *)
Definition actual_censor (censor : censor_t) (value : heap -> outcome val)
    (path : val) : M val :=
  match censor with
  | CensorFun f =>
      let* x := reading value in
      let* _ := journal x path in
      ret (f x path)
  | CensorVal c => ret c
  end.

(** ** Wildcard paths *)

(** [parts.indexOf('*')] *)
Fixpoint index_of_wildcard (parts : list string) : option nat :=
  match parts with
  | [] => None
  | p :: rest => if is_wildcard p then Some 0 else S <$> index_of_wildcard rest
  end.

(** The loop [for (const part of ps) { if (current == null) return;
    current = current[part] }], shared by both wildcard routines; [None]
    stands for the early [return]. *)
Fixpoint follow (h : heap) (current : val) (ps : list string)
  : outcome (option val) :=
  match ps with
  | [] => Ret (Some current)
  | part :: rest =>
      if is_nullish current then Ret None
      else match get_prop h current part with
           | Ret next => follow h next rest
           | Throw e => Throw e
           | OutOfFuel => OutOfFuel
           end
  end.

(** The replacement text of [String.prototype.replace] with a string
    pattern: [$$], [$&], [$`] and [$'] are expanded, any other character is
    copied. *)
Fixpoint expand_replacement (repl matched before after : string) : string :=
  match repl with
  | EmptyString => EmptyString
  | String c rest =>
      if Ascii.eqb c "$" then
        match rest with
        | String d rest' =>
            if Ascii.eqb d "$" then
              "$" +:+ expand_replacement rest' matched before after
            else if Ascii.eqb d "&" then
              matched +:+ expand_replacement rest' matched before after
            else if Ascii.eqb d "`" then
              before +:+ expand_replacement rest' matched before after
            else if Ascii.eqb d "'" then
              after +:+ expand_replacement rest' matched before after
            else String c (expand_replacement rest matched before after)
        | EmptyString => String c EmptyString
        end
      else String c (expand_replacement rest matched before after)
  end.

(** [s.replace('*', repl)]: only the first star is replaced. *)
Fixpoint replace_star_from (before s repl : string) : string :=
  match s with
  | EmptyString => before
  | String c rest =>
      if Ascii.eqb c "*" then before +:+ expand_replacement repl "*" before rest +:+ rest
      else replace_star_from (push_char before c) rest repl
  end.

Definition replace_star (s repl : string) : string := replace_star_from "" s repl.

(** [xs.join('.')] *)
Fixpoint join_dot (xs : list string) : string :=
  match xs with
  | [] => ""
  | [x] => x
  | x :: rest => x +:+ "." +:+ join_dot rest
  end.

Section wildcard.
Variables (censor : censor_t) (parts : list string) (wildcardIndex : nat).

Definition beforeWildcard : list string := take wildcardIndex parts.
Definition afterWildcard : list string := drop (S wildcardIndex) parts.

(** The inner function of [redactIntermediateWildcard].  Every call
    lengthens [pathSoFar], so [gas] counts the nesting still allowed. *)
Fixpoint traverse (gas : nat) (current : val) (pathSoFar : list string) : M unit :=
  match gas with
  | O => out_of_fuel
  | S gas' =>
      if length pathSoFar =? length beforeWildcard then
        let* arr := reading (fun h => Ret (is_array h current)) in
        if arr then
          let* n := reading (fun h => Ret (arr_length h current)) in
          for_each (seq 0 n) (fun i =>
            let* child := reading (fun h => arr_get h current i) in
            traverse gas' child (pathSoFar ++ [string_of_nat i]))
        else
          let* isobj := reading (fun h => Ret (is_object h current)) in
          if isobj then
            let* keys := reading (fun h => Ret (enum_keys h current)) in
            for_each keys (fun key =>
              let* child := reading (fun h => get_prop h current key) in
              traverse gas' child (pathSoFar ++ [key]))
          else ret tt
      else if length pathSoFar <? length beforeWildcard then
        let nextKey := default "undefined" (beforeWildcard !! length pathSoFar) in
        let* isobj := reading (fun h => Ret (truthy current && is_object h current)) in
        if isobj then
          let* present := reading (fun h => has_prop h current nextKey) in
          if present then
            let* child := reading (fun h => get_prop h current nextKey) in
            traverse gas' child (pathSoFar ++ [nextKey])
          else ret tt
        else ret tt
      else
        let* c := actual_censor censor (fun h => getValue h current afterWildcard)
                    (VStr (join_dot pathSoFar +:+ "." +:+ join_dot afterWildcard)) in
        let* _ := setValue current afterWildcard c in
        ret tt
  end.

Definition redactIntermediateWildcard (obj : val) : M unit :=
  if length beforeWildcard =? 0 then
    traverse 2 obj []
  else
    let* found := reading (fun h => follow h obj beforeWildcard) in
    match found with
    | None => ret tt
    | Some current =>
        if is_nullish current then ret tt
        else traverse 2 current beforeWildcard
    end.
End wildcard.

Definition redactWildcardPath (obj : val) (parts : list string) (censor : censor_t)
    (originalPath : string) : M unit :=
  match index_of_wildcard parts with
  | None => ret tt
  | Some wildcardIndex =>
      if wildcardIndex =? length parts - 1 then
        let parentParts := removelast parts in
        let* found := reading (fun h => follow h obj parentParts) in
        match found with
        | None => ret tt
        | Some current =>
            let* arr := reading (fun h => Ret (is_array h current)) in
            if arr then
              let* n := reading (fun h => Ret (arr_length h current)) in
              for_each (seq 0 n) (fun i =>
                let* c := actual_censor censor (fun h => arr_get h current i)
                            (VStr (replace_star originalPath (string_of_nat i))) in
                arr_set current i c)
            else
              let* isobj := reading (fun h => Ret (is_object h current)) in
              if isobj then
                let* keys := reading (fun h => Ret (enum_keys h current)) in
                for_each keys (fun key =>
                  let* c := actual_censor censor (fun h => get_prop h current key)
                              (VStr (replace_star originalPath key)) in
                  set_prop current key c)
              else ret tt
        end
      else redactIntermediateWildcard censor parts wildcardIndex obj
  end.

(** ** The default encoder, [JSON.stringify] *)

Definition hex_digit (n : nat) : ascii :=
  default "0"%char (String.get n "0123456789abcdef").

Definition json_escape_char (c : ascii) : string :=
  let n := nat_of_ascii c in
  if Ascii.eqb c dquote then String "\" (String dquote EmptyString)
  else if Ascii.eqb c "\" then "\\"
  else if n =? 8 then "\b"
  else if n =? 9 then "\t"
  else if n =? 10 then "\n"
  else if n =? 12 then "\f"
  else if n =? 13 then "\r"
  else if n <? 32 then
    "\u00" +:+ String (hex_digit (n / 16)) (String (hex_digit (n mod 16)) EmptyString)
  else String c EmptyString.

Fixpoint json_escape (s : string) : string :=
  match s with
  | EmptyString => EmptyString
  | String c rest => json_escape_char c +:+ json_escape rest
  end.

Definition json_quote (s : string) : string :=
  String dquote (json_escape s) +:+ String dquote EmptyString.

Fixpoint join_comma (xs : list string) : string :=
  match xs with
  | [] => ""
  | [x] => x
  | x :: rest => x +:+ "," +:+ join_comma rest
  end.

(** [n] written with at least [width] digits. *)
Definition pad_num (width : nat) (n : Z) : string :=
  let s := string_of_Z n in
  string_of_list_ascii (replicate (width - String.length s) "0"%char) +:+ s.

(** [Date.prototype.toISOString] for the time value [t], in milliseconds
    since the epoch (proleptic Gregorian calendar, UTC). *)
Definition toISOString (t : Z) : string :=
  let days := (t / 86400000)%Z in
  let ms := (t mod 86400000)%Z in
  let z := (days + 719468)%Z in
  let era := (z / 146097)%Z in
  let doe := (z - era * 146097)%Z in
  let yoe := ((doe - doe / 1460 + doe / 36524 - doe / 146096) / 365)%Z in
  let doy := (doe - (365 * yoe + yoe / 4 - yoe / 100))%Z in
  let mp := ((5 * doy + 2) / 153)%Z in
  let d := (doy - (153 * mp + 2) / 5 + 1)%Z in
  let m := (if (mp <? 10)%Z then mp + 3 else mp - 9)%Z in
  let y := (yoe + era * 400 + (if (m <=? 2)%Z then 1 else 0))%Z in
  let year :=
    if ((0 <=? y) && (y <=? 9999))%Z then pad_num 4 y
    else if (y <? 0)%Z then "-" +:+ pad_num 6 (- y)
    else "+" +:+ pad_num 6 y in
  year +:+ "-" +:+ pad_num 2 m +:+ "-" +:+ pad_num 2 d +:+ "T" +:+
  pad_num 2 (ms / 3600000) +:+ ":" +:+ pad_num 2 (ms / 60000 mod 60) +:+ ":" +:+
  pad_num 2 (ms / 1000 mod 60) +:+ "." +:+ pad_num 3 (ms mod 1000) +:+ "Z".

(** The text of a value, or [None] where the encoder yields [undefined].
    A path through distinct objects is no longer than the heap, so running
    out of [fuel] means the value is circular. *)
Fixpoint json_text (fuel : nat) (h : heap) (v : val) : outcome (option string) :=
  match fuel with
  | O => Throw (TypeError CircularStructure)
  | S fuel' =>
      match v with
      | VUndef => Ret None
      | VNull => Ret (Some "null")
      | VBool b => Ret (Some (if b then "true" else "false"))
      | VNum n => Ret (Some (string_of_Z n))
      | VStr s => Ret (Some (json_quote s))
      | VRef l =>
          let o := lookup_obj h l in
          match oshape o with
          | SFun _ => Ret None
          | SDate t =>
              if (Z.abs t <=? 8640000000000000)%Z
              then Ret (Some (json_quote (toISOString t)))
              else Ret (Some "null")
          | SArr elems =>
              let step x acc :=
                match acc, json_text fuel' h x with
                | Ret items, Ret item => Ret (default "null" item :: items)
                | Ret _, Throw e => Throw e
                | Ret _, OutOfFuel => OutOfFuel
                | other, _ => other
                end in
              match fold_right step (Ret []) elems with
              | Ret items => Ret (Some ("[" +:+ join_comma items +:+ "]"))
              | Throw e => Throw e
              | OutOfFuel => OutOfFuel
              end
          | SPlain =>
              let step (kv : string * val) acc :=
                match acc, json_text fuel' h kv.2 with
                | Ret items, Ret (Some item) =>
                    Ret ((json_quote kv.1 +:+ ":" +:+ item) :: items)
                | Ret items, Ret None => Ret items
                | Ret _, Throw e => Throw e
                | Ret _, OutOfFuel => OutOfFuel
                | other, _ => other
                end in
              match fold_right step (Ret []) (oprops o) with
              | Ret items => Ret (Some ("{" +:+ join_comma items +:+ "}"))
              | Throw e => Throw e
              | OutOfFuel => OutOfFuel
              end
          end
      end
  end.

Definition JSON_stringify (h : heap) (v : val) : outcome val :=
  match json_text (S (length h)) h v with
  | Ret (Some s) => Ret (VStr s)
  | Ret None => Ret VUndef
  | Throw e => Throw e
  | OutOfFuel => OutOfFuel
  end.

(** ** redactPaths *)

(** An entry of the [paths] array: a string, or some other scalar. *)
Inductive path_entry : Type :=
| PathStr (s : string)
| PathNum (n : Z)
| PathBool (b : bool)
| PathNull
| PathUndef.

Definition entry_val (p : path_entry) : val :=
  match p with
  | PathStr s => VStr s
  | PathNum n => VNum n
  | PathBool b => VBool b
  | PathNull => VNull
  | PathUndef => VUndef
  end.

(** [parsePath(path)] on an entry: a number or boolean has no [length], so
    the loop never runs; reading [length] of [null] or [undefined] throws. *)
Definition parse_entry (p : path_entry) : outcome (list string) :=
  match p with
  | PathStr s => Ret (parsePath s)
  | PathNum _ | PathBool _ => Ret []
  | PathNull | PathUndef => Throw (TypeError PropertyOfNullish)
  end.

(** [parts.includes('*')] *)
Definition includes_wildcard (parts : list string) : bool :=
  existsb is_wildcard parts.

(** The body of the loop of [redactPaths], for one configured path. *)
Definition redact_one (obj : val) (censor : censor_t) (path : path_entry) : M unit :=
  let* parts := reading (fun _ => parse_entry path) in
  if includes_wildcard parts then
    match path with
    | PathStr s => redactWildcardPath obj parts censor s
    | _ => ret tt
    end
  else
    let* c := actual_censor censor (fun h => getValue h obj parts) (entry_val path) in
    let* _ := setValue obj parts c in
    ret tt.

Definition redactPaths (obj : val) (paths : list path_entry) (censor : censor_t)
  : M unit :=
  for_each paths (redact_one obj censor).

(** ** slowRedact and the function it returns *)

Inductive serialize_t : Type :=
| SerializeFun (f : heap -> val -> outcome val)  (* typeof serialize === 'function' *)
| SerializeVal (v : val).

Inductive paths_arg : Type :=
| PathsArray (entries : list path_entry)
| PathsOther.                                    (* !Array.isArray(paths) *)

(** The [options] argument; [None] is a field left out. *)
Record options : Type := Options {
  opt_paths : option paths_arg;
  opt_censor : option censor_t;
  opt_serialize : option serialize_t;
  opt_strict : option bool
}.

(** What the returned closure captures. *)
Record config : Type := Config {
  cfg_paths : list path_entry;
  cfg_censor : censor_t;
  cfg_serialize : serialize_t;
  cfg_strict : bool
}.

Definition slowRedact (o : options) : outcome config :=
  match default (PathsArray []) (opt_paths o) with
  | PathsOther => Throw (TypeError PathsNotArray)
  | PathsArray entries =>
      Ret (Config entries
             (default (CensorVal (VStr "[REDACTED]")) (opt_censor o))
             (default (SerializeFun JSON_stringify) (opt_serialize o))
             (default true (opt_strict o)))
  end.

(** [serialize ? serialize(obj) : obj] *)
Definition serialize_or_raw (s : serialize_t) (obj : val) : M val :=
  match s with
  | SerializeFun f => reading (fun h => f h obj)
  | SerializeVal v => if truthy v then throw (TypeError NotCallable) else ret obj
  end.

(** The end of [redact]: what is returned once the paths are applied. *)
Definition deliver (cfg : config) (cloned original : val) : M val :=
  match cfg_serialize cfg with
  | SerializeVal (VBool false) =>
      let* restore := alloc (Obj (SFun (FRestore original)) []) in
      let* _ := set_prop cloned "restore" restore in
      ret cloned
  | SerializeFun f => reading (fun h => f h cloned)
  | SerializeVal _ => reading (fun h => JSON_stringify h cloned)
  end.

Definition redact (cfg : config) (fuel : nat) (obj : val) : M val :=
  let* scalar := reading (fun h =>
      Ret (cfg_strict cfg && (bool_decide (obj = VNull)
                          || negb (bool_decide (typeof h obj = TyObject))))) in
  let* early :=
    if scalar then
      if is_nullish obj then
        let* r := serialize_or_raw (cfg_serialize cfg) obj in ret (Some r)
      else
        let* ty := reading (fun h => Ret (typeof h obj)) in
        if negb (bool_decide (ty = TyObject)) then
          let* r := serialize_or_raw (cfg_serialize cfg) obj in ret (Some r)
        else ret None
    else ret None in
  match early with
  | Some r => ret r
  | None =>
      let* cloned := deepClone fuel obj in
      let* original := deepClone fuel obj in
      let* _ := redactPaths cloned (cfg_paths cfg) (cfg_censor cfg) in
      deliver cfg cloned original
  end.


(** ** The path grammar, as the specification words it

    A path is a run of tokens: a dotted segment, a bare bracketed segment,
    or a bracketed segment wrapped in one kind of quote.  [render] writes a
    token the way a caller types it; the parser is checked against it. *)

Inductive token : Type :=
| Dotted (s : string)
| Bracketed (s : string)
| Quoted (q : ascii) (s : string).

Definition has_char (c : ascii) (s : string) : bool :=
  existsb (Ascii.eqb c) (list_ascii_of_string s).

Definition token_ok (tok : token) : bool :=
  match tok with
  | Dotted s => negb (has_char "." s) && negb (has_char "[" s)
  | Bracketed s =>
      negb (has_char "[" s) && negb (has_char "]" s)
      && negb (has_char dquote s) && negb (has_char "'" s)
  | Quoted q s =>
      is_quote q && negb (has_char "[" s) && negb (has_char "]" s)
      && negb (has_char q s)
  end.

Definition render (tok : token) : string :=
  match tok with
  | Dotted s => "." +:+ s
  | Bracketed s => "[" +:+ s +:+ "]"
  | Quoted q s => "[" +:+ String q s +:+ String q "]"
  end.

Definition content (tok : token) : string :=
  match tok with
  | Dotted s | Bracketed s | Quoted _ s => s
  end.

Fixpoint render_all (toks : list token) : string :=
  match toks with
  | [] => ""
  | tok :: rest => render tok +:+ render_all rest
  end.

Definition nonempty (s : string) : bool := negb (String.eqb s "").

(** ** Accessors kept folded during simplification *)

Global Arguments is_object : simpl never.
Global Arguments is_array : simpl never.
Global Arguments has_own : simpl never.
Global Arguments get_own : simpl never.
Global Arguments set_own : simpl never.
Global Arguments lookup_obj : simpl never.
Global Arguments index_of_key : simpl never.
Global Arguments string_of_nat : simpl never.
Global Arguments enum_keys : simpl never.
Global Arguments arr_length : simpl never.

(** One token, read with [cur] still pending, first closes [cur]; a dotted
    token then stays pending itself, a bracketed one is closed by its
    bracket. *)
Definition after_token (parts : list string) (cur : string) (tok : token)
  : list string * string :=
  match tok with
  | Dotted s => (flush parts cur, s)
  | Bracketed s | Quoted _ s => (flush (flush parts cur) s, "")
  end.

(** ** Which paths resolve

    A path resolves in a value when each of its segments names an own
    property of the container reached so far, and every value passed on
    the way is itself a container.  The empty path names the root. *)
Fixpoint path_resolves (h : heap) (current : val) (parts : list string) : bool :=
  match parts with
  | [] => true
  | key :: rest =>
      match current with
      | VRef l =>
          is_object h current
          && has_own (lookup_obj h l) key
          && path_resolves h (get_own (lookup_obj h l) key) rest
      | _ => false
      end
  end.

(** ** What a censor yields, and what it records *)

Definition censor_value (c : censor_t) (x path : val) : val :=
  match c with
  | CensorVal v => v
  | CensorFun f => f x path
  end.

Definition censor_calls (c : censor_t) (x path : val) : list (val * val) :=
  match c with
  | CensorVal _ => []
  | CensorFun _ => [(x, path)]
  end.

(** ** The terminal wildcard *)

Definition star_path (path : string) (key : string) : val :=
  VStr (replace_star path key).

Definition censor_elem (c : censor_t) (path : string) (i : nat) (x : val) : val :=
  censor_value c x (star_path path (string_of_nat i)).

Definition censor_prop (c : censor_t) (path : string) (kv : string * val)
  : string * val :=
  (kv.1, censor_value c kv.2 (star_path path kv.1)).

(** One round of the loops of [redactWildcardPath], on the container [l]. *)
Definition elem_body (c : censor_t) (path : string) (l : nat) (i : nat) : M unit :=
  let* v := actual_censor c (fun h => arr_get h (VRef l) i)
              (star_path path (string_of_nat i)) in
  arr_set (VRef l) i v.

Definition prop_body (c : censor_t) (path : string) (l : nat) (key : string) : M unit :=
  let* v := actual_censor c (fun h => get_prop h (VRef l) key) (star_path path key) in
  set_prop (VRef l) key v.

(** The object at the end of a terminal wildcard, after redaction: every
    element of an array, every own property of another object. *)
Definition censored (c : censor_t) (path : string) (o : obj) : obj :=
  match oshape o with
  | SArr es => Obj (SArr (imap (censor_elem c path) es)) (oprops o)
  | sh => Obj sh (map (censor_prop c path) (oprops o))
  end.

(** The calls a censor function receives on the way, in order. *)
Definition censored_calls (c : censor_t) (path : string) (o : obj) : list (val * val) :=
  match oshape o with
  | SArr es =>
      mjoin (imap (fun i x => censor_calls c x (star_path path (string_of_nat i))) es)
  | _ =>
      mjoin (map (fun kv => censor_calls c kv.2 (star_path path kv.1)) (oprops o))
  end.

(** ** Protected locations

    Redaction writes through references it finds by walking from its root.
    Given a set [P] of protected locations, the walk never enters [P] as
    long as nothing outside [P] points into it, and then no object of [P]
    is written.  The same argument serves for the caller's objects and for
    the snapshot kept for [restore]. *)

Definition children (o : obj) : list val :=
  match oshape o with
  | SArr es => es
  | _ => []
  end ++ map snd (oprops o).

Definition outside (P : nat -> Prop) (v : val) : Prop :=
  match v with
  | VRef l => ~ P l
  | _ => True
  end.

(** Nothing outside [P] points into [P]. *)
Definition sealed (P : nat -> Prop) (h : list obj) : Prop :=
  forall l o, ~ P l -> h !! l = Some o -> Forall (outside P) (children o).

(** The objects of [P] are as they were in [h0]. *)
Definition kept (P : nat -> Prop) (h0 h : list obj) : Prop :=
  length h = length h0 /\ forall l, P l -> h !! l = h0 !! l.

Definition guarded (P : nat -> Prop) (h0 : list obj) (st : state) : Prop :=
  kept P h0 (st_heap st) /\ sealed P (st_heap st).

(** [m] keeps the protected objects intact, and what it returns satisfies
    [Q]. *)
Definition safe (P : nat -> Prop) {A} (m : M A) (Q : A -> Prop) : Prop :=
  forall h0 st, guarded P h0 st ->
    guarded P h0 (m st).2 /\ forall a, (m st).1 = Ret a -> Q a.


Abbreviation anything := (fun _ => True).

(** ** Structures and deep equality

    A [tree] is the shape of a value made of plain objects, arrays and dates
    over scalars.  [repr_in lo hi h v t] says that [v] denotes [t] in the
    heap [h] using only locations from [lo] up to [hi]; two values are
    deeply equal when they denote the same tree. *)

Inductive tree : Type :=
| TLeaf (v : val)
| TDate (t : Z)
| TArr (items : list tree)
| TObj (fields : list (string * tree)).

Definition is_scalar (v : val) : bool :=
  match v with
  | VRef _ => false
  | _ => true
  end.

Fixpoint depth (t : tree) : nat :=
  match t with
  | TLeaf _ | TDate _ => 0
  | TArr items => S (foldr (fun t n => Nat.max (depth t) n) 0 items)
  | TObj fields => S (foldr (fun ft n => Nat.max (depth ft.2) n) 0 fields)
  end.

Inductive repr_in (lo hi : nat) (h : heap) : val -> tree -> Prop :=
| repr_leaf v :
    is_scalar v = true -> repr_in lo hi h v (TLeaf v)
| repr_date l t :
    lo <= l < hi -> h !! l = Some (Obj (SDate t) []) ->
    repr_in lo hi h (VRef l) (TDate t)
| repr_arr l vs items :
    lo <= l < hi -> h !! l = Some (Obj (SArr vs) []) ->
    Forall2 (repr_in lo hi h) vs items ->
    repr_in lo hi h (VRef l) (TArr items)
| repr_obj l props fields :
    lo <= l < hi -> h !! l = Some (Obj SPlain props) ->
    NoDup (map fst props) ->
    map fst props = map fst fields ->
    Forall2 (repr_in lo hi h) (map snd props) (map snd fields) ->
    repr_in lo hi h (VRef l) (TObj fields).

(** [v] denotes [t] somewhere in [h]. *)
Definition repr (h : heap) (v : val) (t : tree) : Prop :=
  repr_in 0 (length h) h v t.

Definition within (lo hi : nat) (v : val) : Prop :=
  match v with
  | VRef l => lo <= l < hi
  | _ => True
  end.

(** Every reference held by an object of the range stays in the range. *)
Definition closed (lo hi : nat) (h : heap) : Prop :=
  forall l o, lo <= l < hi -> h !! l = Some o -> Forall (within lo hi) (children o).


(** Induction over a tree and all the trees inside it. *)
Fixpoint tree_rect' (Q : tree -> Prop)
    (Hleaf : forall v, Q (TLeaf v))
    (Hdate : forall t, Q (TDate t))
    (Harr : forall items, Forall Q items -> Q (TArr items))
    (Hobj : forall fields, Forall Q (map snd fields) -> Q (TObj fields))
    (t : tree) {struct t} : Q t :=
  match t with
  | TLeaf v => Hleaf v
  | TDate z => Hdate z
  | TArr items =>
      Harr items
        ((fix go (ts : list tree) : Forall Q ts :=
            match ts with
            | [] => @List.Forall_nil _ Q
            | x :: rest =>
                @List.Forall_cons _ Q x _ (tree_rect' Q Hleaf Hdate Harr Hobj x) (go rest)
            end) items)
  | TObj fields =>
      Hobj fields
        ((fix go (fs : list (string * tree)) : Forall Q (map snd fs) :=
            match fs with
            | [] => @List.Forall_nil _ Q
            | (k, x) :: rest =>
                @List.Forall_cons _ Q x _ (tree_rect' Q Hleaf Hdate Harr Hobj x) (go rest)
            end) fields)
  end.

(** What [deepClone] promises on a structure, for a given [fuel]. *)
Definition clones_well (fuel : nat) : Prop :=
  forall t v lo hi (h : heap) calls,
    repr_in lo hi h v t -> hi <= length h -> depth t < fuel ->
    exists v' h',
      deepClone fuel v (State h calls) = (Ret v', State h' calls)
      /\ h `prefix_of` h'
      /\ repr_in (length h) (length h') h' v' t
      /\ closed (length h) (length h') h'.

(** ** Worked inputs *)

(** The text [["weird-key"]["inner"]], as two quoted tokens. *)
Definition weird_key_path : list token :=
  [Quoted dquote "weird-key"; Quoted dquote "inner"].

Definition default_options (ps : list string) : options :=
  Options (Some (PathsArray (map PathStr ps))) None None None.

Definition default_config (ps : list string) : config :=
  Config (map PathStr ps) (CensorVal (VStr "[REDACTED]"))
         (SerializeFun JSON_stringify) true.


(** [{items: [1, 2, 3]}] *)
Definition heap_items : list obj :=
  [Obj SPlain [("items", VRef 1)]; Obj (SArr [VNum 1; VNum 2; VNum 3]) []].

(** [{a: {x: {b: 1}, y: {b: 2}}}] *)
Definition heap_a_xy : list obj :=
  [Obj SPlain [("a", VRef 1)]; Obj SPlain [("x", VRef 2); ("y", VRef 3)];
   Obj SPlain [("b", VNum 1)]; Obj SPlain [("b", VNum 2)]].

(** [{a: [{b: 1}, {b: 2}]}] *)
Definition heap_a_list : list obj :=
  [Obj SPlain [("a", VRef 1)]; Obj (SArr [VRef 2; VRef 3]) [];
   Obj SPlain [("b", VNum 1)]; Obj SPlain [("b", VNum 2)]].

(** [{data: {item1: 123, item2: {nested: 'secret'}}}], from the test
    suite's type-safety case. *)
Definition heap_data : list obj :=
  [Obj SPlain [("data", VRef 1)];
   Obj SPlain [("item1", VNum 123); ("item2", VRef 2)];
   Obj SPlain [("nested", VStr "secret")]].

(** [{secret: 'hidden'}] *)
Definition heap_secret : list obj := [Obj SPlain [("secret", VStr "hidden")]].

(** [{f: fn}] where the function [fn] carries a property [x = 1]. *)
Definition heap_fn : list obj :=
  [Obj SPlain [("f", VRef 1)]; Obj (SFun FOpaque) [("x", VNum 1)]].

(** The censor [(value, path) => 'REDACTED:' + path] of the test suite. *)
Definition tagging_censor : censor_t :=
  CensorFun (fun _ path =>
    match path with
    | VStr s => VStr ("REDACTED:" +:+ s)
    | _ => VUndef
    end).

(** ** What reaches the censor journal *)

(** [m] leaves the censor journal alone. *)
Definition quiet {A} (m : M A) : Prop :=
  forall st, st_calls (m st).2 = st_calls st.

(** The keys an intermediate wildcard branches into. *)
Definition branch_keys (h : list obj) (current : val) : list string :=
  if is_array h current then map string_of_nat (seq 0 (arr_length h current))
  else if is_object h current then enum_keys h current
  else [].

(** The path handed to the censor for the branch [key]. *)
Definition branch_path (pre post : list string) (key : string) : val :=
  VStr (join_dot (pre ++ [key]) +:+ "." +:+ join_dot post).



(** ** Censors that yield scalars *)


(** [o = {x: 1, a: 2}], used both as the input and as the censor. *)
Definition heap_alias : list obj := [Obj SPlain [("x", VNum 1); ("a", VNum 2)]].

(** ** Restoring *)





(** ** Fuel *)

(** [m] never stops for lack of fuel. *)
Definition finishes {A} (m : M A) : Prop :=
  forall st, (m st).1 <> OutOfFuel.

(** ** Notions for the further properties *)

(** The scanner state with [done] pushed ahead of its segments. *)
Definition with_pushed (done : list string) (st : pstate) : pstate :=
  PState (done ++ ps_parts st) (ps_current st) (ps_inBrackets st)
         (ps_inQuotes st) (ps_quoteChar st).

(** [{"$$": 1}] (a key made of two dollar signs) *)
Definition heap_dollar : heap := [Obj SPlain [("$$", VNum 1)]].

(** From [st] to [st'] the heap has only grown past its first [n] objects,
    and the censor journal is as it was. *)
Definition extends (n : nat) (st st' : state) : Prop :=
  length (st_heap st) <= length (st_heap st')
  /\ (forall l, l < n -> st_heap st' !! l = st_heap st !! l)
  /\ st_calls st' = st_calls st.

(** The values [deepClone] recurses into: the elements of an array, the
    own properties of a plain object. *)
Definition cloned_children (o : obj) : list val :=
  match oshape o with
  | SArr elems => elems
  | SPlain => map (get_own o) (map fst (oprops o))
  | _ => []
  end.

(** Every object of [C] holds a reference to an object of [C]: from any of
    them a walk through children never ends. *)
Definition cyclic (h : heap) (C : loc -> Prop) : Prop :=
  forall l, C l ->
    exists o l', h !! l = Some o /\ VRef l' ∈ cloned_children o /\ C l'.

(** [o = {name: 'n', self: o}] *)
Definition heap_self : heap := [Obj SPlain [("name", VStr "n"); ("self", VRef 0)]].

(** [m] returns or runs out of fuel, but never throws. *)
Definition never_throws {A} (m : M A) : Prop :=
  forall st e, (m st).1 <> Throw e.

(** The objects a walk along [parts] reads a property of, in order: the
    root, then the value of each segment but the last. *)
Fixpoint trail (h : heap) (current : val) (parts : list string) : list loc :=
  match parts with
  | [] => []
  | key :: rest =>
      match current with
      | VRef l => l :: trail h (get_own (lookup_obj h l) key) rest
      | _ => []
      end
  end.

(** An object with every element, or every own property, set to [v]. *)
Definition blanked (v : val) (o : obj) : obj :=
  match oshape o with
  | SArr es => Obj (SArr (map (fun _ => v) es)) (oprops o)
  | sh => Obj sh (map (fun kv => (kv.1, v)) (oprops o))
  end.

(** [{undefined: 1, a: 2}] *)
Definition heap_undefined_key : heap :=
  [Obj SPlain [("undefined", VNum 1); ("a", VNum 2)]].

(** [{a: {b: 1, c: 2}}] *)
Definition heap_a_bc : heap :=
  [Obj SPlain [("a", VRef 1)]; Obj SPlain [("b", VNum 1); ("c", VNum 2)]].

(** What an object looks like with its values blanked out: its kind (with
    the length of an array, the time of a date, the body of a function) and
    its own keys, in order. *)
Definition layout (o : obj) : shape * list string :=
  (match oshape o with
   | SArr es => SArr (map (fun _ => VUndef) es)
   | sh => sh
   end,
   map fst (oprops o)).

(** [m] keeps the layout [L] of the heap: it allocates nothing, and adds or
    removes no property or element. *)
Definition steady (L : list (shape * list string)) {A} (m : M A) : Prop :=
  forall st, map layout (st_heap st) = L -> map layout (st_heap (m st).2) = L.

(** What an intermediate wildcard does for the child [key] of the container
    [current]: the segments after the star are applied to the child, with
    the child as the root. *)
Definition redact_branch (c : censor_t) (pre post : list string) (current : val)
    (key : string) : M unit :=
  let* child := reading (fun h => get_prop h current key) in
  let* x := actual_censor c (fun h => getValue h child post) (branch_path pre post key) in
  let* _ := setValue child post x in
  ret tt.

(** [{a: [1, {b: 2}]}] *)
Definition heap_mixed : heap :=
  [Obj SPlain [("a", VRef 1)]; Obj (SArr [VNum 1; VRef 2]) []; Obj SPlain [("b", VNum 2)]].


(** A segment that can be written between dots as it is: not empty, and
    free of dots and opening brackets. *)
Definition plain_segment (s : string) : bool :=
  nonempty s && negb (has_char "." s) && negb (has_char "[" s).

(** [l[key]], for the object at [l]. *)
Definition child_of (h : heap) (l : loc) (key : string) : val :=
  get_own (lookup_obj h l) key.

(** The objects passed on the way from each child of [l] named in [keys]
    to the slot [post] names in it, child after child. *)
Fixpoint trails (h : heap) (l : loc) (post keys : list string) : list loc :=
  match keys with
  | [] => []
  | key :: rest => trail h (child_of h l key) post ++ trails h l post rest
  end.

(** The objects an intermediate wildcard passes through: those on the way
    to the container [l], the container, and for every child those on the
    way to the slot to redact. *)
Definition visited (h : heap) (root : val) (pre : list string) (l : loc)
    (post keys : list string) : list loc :=
  trail h root pre ++ l :: trails h l post keys.

(** The object that holds the last segment of [post] under [child]. *)
Definition parent_of (h : heap) (child : val) (post : list string) : loc :=
  default 0 (last (trail h child post)).

(** The objects the loop over [keys] writes to. *)
Definition written (h : heap) (l : loc) (post keys : list string) : list loc :=
  map (fun key => parent_of h (child_of h l key) post) keys.

(** The heap [hi] after the children in [done] have been dealt with: each
    of them holds [c] at [post], and only their slots were written. *)
Definition branches_done (h : heap) (l : loc) (post : list string) (pkey : string)
    (c : val) (done : list string) (hi : heap) : Prop :=
  (forall loc, loc ∉ written h l post done -> lookup_obj hi loc = lookup_obj h loc)
  /\ (forall key, key ∈ done ->
        get_own (lookup_obj hi (parent_of h (child_of h l key) post)) pkey = c).

(** * Basic facts *)

Lemma append_cons (x : ascii) (a b : string) : String x a +:+ b = String x (a +:+ b).
Proof. reflexivity. Qed.

Lemma append_nil_l (b : string) : "" +:+ b = b.
Proof. reflexivity. Qed.

Lemma append_assoc (a b c : string) : (a +:+ b) +:+ c = a +:+ (b +:+ c).
Proof.
  induction a as [|x a IH]; [reflexivity|].
  rewrite !append_cons. now f_equal.
Qed.

Lemma append_nil_r (a : string) : a +:+ "" = a.
Proof.
  induction a as [|x a IH]; [reflexivity|].
  rewrite append_cons. now f_equal.
Qed.

Lemma push_char_append (cur : string) (c : ascii) (s : string) :
  push_char cur c +:+ s = cur +:+ String c s.
Proof. unfold push_char. now rewrite append_assoc. Qed.

Lemma to_uint_not_nil (n : nat) : Nat.to_uint n <> Decimal.Nil.
Proof.
  rewrite <- (DecimalNat.Unsigned.of_to n) at 1.
  rewrite DecimalNat.Unsigned.to_of.
  apply DecimalFacts.unorm_nonnil.
Qed.

Lemma index_of_key_string_of_nat (n : nat) :
  index_of_key (string_of_nat n) = Some n.
Proof.
  unfold index_of_key, string_of_nat.
  rewrite NilZero.usu by apply to_uint_not_nil.
  rewrite DecimalNat.Unsigned.of_to.
  now rewrite String.eqb_refl.
Qed.

Lemma index_of_key_sound (key : string) (n : nat) :
  index_of_key key = Some n -> key = string_of_nat n.
Proof.
  unfold index_of_key.
  destruct (NilZero.uint_of_string key) as [d|]; [|discriminate].
  destruct (String.eqb_spec (string_of_nat (Nat.of_uint d)) key) as [E|]; [|discriminate].
  intros [= <-]. now symmetry.
Qed.

(** ** parsePath, against the grammar *)

Lemma parse_loop_app (st : pstate) (a b : string) :
  parse_loop st (a +:+ b) = parse_loop (parse_loop st a) b.
Proof.
  revert st; induction a as [|c a IH]; intros st; [reflexivity|].
  rewrite append_cons. simpl. apply IH.
Qed.

Lemma has_char_cons (c x : ascii) (s : string) :
  has_char c (String x s) = false -> Ascii.eqb x c = false /\ has_char c s = false.
Proof.
  unfold has_char; simpl. intros H. apply orb_false_elim in H as [H1 H2].
  split; [now rewrite Ascii.eqb_sym | exact H2].
Qed.

(** Outside brackets every character other than a dot or an opening
    bracket is accumulated. *)
Lemma scan_dotted (parts : list string) (cur s : string) (iq : bool) (qc : option ascii) :
  has_char "." s = false -> has_char "[" s = false ->
  parse_loop (PState parts cur false iq qc) s = PState parts (cur +:+ s) false iq qc.
Proof.
  revert cur; induction s as [|c s IH]; intros cur Hd Hb; simpl.
  - now rewrite append_nil_r.
  - apply has_char_cons in Hd as [Hd1 Hd2], Hb as [Hb1 Hb2].
    rewrite Hd1, Hb1. simpl. rewrite !andb_false_r.
    rewrite IH by assumption. now rewrite push_char_append.
Qed.

(** Inside brackets and outside quotes, dots are ordinary characters. *)
Lemma scan_bracketed (parts : list string) (cur s : string) (qc : option ascii) :
  has_char "[" s = false -> has_char "]" s = false ->
  has_char dquote s = false -> has_char "'" s = false ->
  parse_loop (PState parts cur true false qc) s = PState parts (cur +:+ s) true false qc.
Proof.
  revert cur; induction s as [|c s IH]; intros cur Hb Hc Hq Ha; simpl.
  - now rewrite append_nil_r.
  - apply has_char_cons in Hb as [Hb1 Hb2], Hc as [Hc1 Hc2],
      Hq as [Hq1 Hq2], Ha as [Ha1 Ha2].
    unfold is_quote. rewrite Hb1, Hc1, Hq1, Ha1. simpl.
    rewrite IH by assumption. now rewrite push_char_append.
Qed.

(** Inside quotes only the closing quote and the brackets are special. *)
Lemma scan_quoted (parts : list string) (cur s : string) (q : ascii) :
  has_char "[" s = false -> has_char "]" s = false -> has_char q s = false ->
  parse_loop (PState parts cur true true (Some q)) s
  = PState parts (cur +:+ s) true true (Some q).
Proof.
  revert cur; induction s as [|c s IH]; intros cur Hb Hc Hq; simpl.
  - now rewrite append_nil_r.
  - apply has_char_cons in Hb as [Hb1 Hb2], Hc as [Hc1 Hc2], Hq as [Hq1 Hq2].
    rewrite Hb1, Hc1. simpl.
    assert (Hne : bool_decide (Some q = Some c) = false).
    { apply bool_decide_eq_false. intros [= ->]. now rewrite Ascii.eqb_refl in Hq1. }
    rewrite Hne.
    destruct (is_quote c); simpl; rewrite IH by assumption; now rewrite push_char_append.
Qed.

Lemma is_quote_not_bracket (q : ascii) :
  is_quote q = true ->
  Ascii.eqb q "." = false /\ Ascii.eqb q "[" = false /\ Ascii.eqb q "]" = false.
Proof.
  unfold is_quote. intros H. apply orb_true_iff in H as [H|H];
    apply Ascii.eqb_eq in H; subst q; repeat split; reflexivity.
Qed.

Lemma scan_token (parts : list string) (cur : string) (qc : option ascii) (tok : token) :
  token_ok tok = true ->
  exists qc',
    parse_loop (PState parts cur false false qc) (render tok)
    = PState (after_token parts cur tok).1 (after_token parts cur tok).2 false false qc'.
Proof.
  destruct tok as [s|s|q s]; simpl; intros Hok.
  - apply andb_true_iff in Hok as [H1 H2]. apply negb_true_iff in H1, H2.
    exists qc. rewrite ?append_cons, ?append_nil_l. simpl. now rewrite scan_dotted.
  - repeat (apply andb_true_iff in Hok as [Hok ?]).
    repeat match goal with H : negb _ = true |- _ => apply negb_true_iff in H end.
    exists qc. rewrite ?append_cons, ?append_nil_l. simpl.
    rewrite parse_loop_app, scan_bracketed by assumption. reflexivity.
  - repeat (apply andb_true_iff in Hok as [Hok ?]).
    repeat match goal with H : negb _ = true |- _ => apply negb_true_iff in H end.
    destruct (is_quote_not_bracket q Hok) as (Hq0 & Hq1 & Hq2).
    exists None. rewrite ?append_cons, ?append_nil_l. simpl.
    rewrite Hq1, Hq2, Hok. simpl.
    rewrite parse_loop_app, scan_quoted by assumption. simpl.
    rewrite Hq1, Hq2, Hok. simpl.
    rewrite bool_decide_eq_true_2 by reflexivity. reflexivity.
Qed.

Lemma flush_flush (parts : list string) (cur s : string) :
  flush (flush parts cur) s = flush parts cur ++ (if nonempty s then [s] else []).
Proof.
  unfold flush at 1, nonempty.
  destruct (String.eqb s ""); simpl; [now rewrite app_nil_r | reflexivity].
Qed.

Lemma filter_nonempty_cons (s : string) (rest : list string) :
  filter (fun s => nonempty s = true) (s :: rest)
  = (if nonempty s then [s] else []) ++ filter (fun s => nonempty s = true) rest.
Proof.
  rewrite filter_cons. destruct (nonempty s) eqn:E.
  - now rewrite decide_True.
  - now rewrite decide_False.
Qed.

Lemma scan_tokens (toks : list token) :
  forall parts cur qc,
    forallb token_ok toks = true ->
    let st := parse_loop (PState parts cur false false qc) (render_all toks) in
    flush (ps_parts st) (ps_current st)
    = flush parts cur ++ filter (fun s => nonempty s = true) (map content toks).
Proof.
  induction toks as [|tok toks IH]; intros parts cur qc Hall; simpl.
  - now rewrite app_nil_r.
  - simpl in Hall. apply andb_true_iff in Hall as [Hok Hall].
    rewrite parse_loop_app.
    destruct (scan_token parts cur qc tok Hok) as [qc' ->].
    rewrite (IH _ _ qc' Hall), filter_nonempty_cons.
    destruct tok as [s|s|q s]; simpl.
    + now rewrite flush_flush, <- app_assoc.
    + unfold flush at 1; simpl. now rewrite flush_flush, <- app_assoc.
    + unfold flush at 1; simpl. now rewrite flush_flush, <- app_assoc.
Qed.

(** ** Reading the heap never fails on an object *)

Lemma is_object_ref (h : heap) (v : val) :
  is_object h v = true -> exists l, v = VRef l.
Proof. destruct v; unfold is_object; simpl; try discriminate; eauto. Qed.

Lemma getValue_total (h : heap) (parts : list string) :
  forall current, exists v, getValue h current parts = Ret v.
Proof.
  induction parts as [|part rest IH]; intros current; simpl; [eauto|].
  destruct current; simpl; eauto.
Qed.

Lemma follow_total (h : heap) (ps : list string) :
  forall current, exists r, follow h current ps = Ret r.
Proof.
  induction ps as [|part rest IH]; intros current; simpl; [eauto|].
  destruct current; simpl; eauto.
Qed.

(** [follow] and [getValue] walk the same way; [follow] remembers whether
    the walk was cut short. *)
Lemma follow_getValue (h : heap) (ps : list string) :
  forall current v,
    getValue h current ps = Ret v -> is_nullish v = false ->
    follow h current ps = Ret (Some v).
Proof.
  induction ps as [|part rest IH]; intros current v; simpl.
  - now intros [= ->].
  - destruct current; simpl; try (intros [= <-]; discriminate); apply IH.
Qed.


Lemma last_cons_cons {A} (x y : A) (l : list A) : last (x :: y :: l) = last (y :: l).
Proof. reflexivity. Qed.


(** When a path without wildcard does not resolve in an object, [setValue]
    returns without touching anything. *)
Lemma setValue_unresolved (h : heap) (calls : list (val * val))
    (parts : list string) (value : val) :
  forall root,
    is_object h root = true ->
    last parts <> Some "*" ->
    path_resolves h root parts = false ->
    exists b, setValue root parts value (State h calls) = (Ret b, State h calls).
Proof.
  induction parts as [|key rest IH]; intros root Hobj Hlast Hres; [discriminate|].
  destruct (is_object_ref _ _ Hobj) as [l ->].
  cbn [path_resolves] in Hres. rewrite Hobj, andb_true_l in Hres.
  destruct rest as [|key2 rest].
  - (* the last segment: it is absent *)
    cbn [path_resolves] in Hres. rewrite andb_true_r in Hres.
    exists true. unfold setValue, bind, reading, ret; simpl.
    rewrite bool_decide_eq_false_2 by (simpl in Hlast; exact Hlast).
    unfold last_key; simpl. now rewrite Hres.
  - destruct (has_own (lookup_obj h l) key) eqn:Hk.
    + rewrite andb_true_l in Hres.
      destruct (is_object h (get_own (lookup_obj h l) key)) eqn:Hc.
      * destruct (IH _ Hc Hlast Hres) as [b Hb].
        exists b. revert Hb.
        unfold setValue, bind, reading, ret; simpl. rewrite Hk, Hc.
        unfold last_key. rewrite !last_cons_cons.
        exact (fun H => H).
      * exists false. unfold setValue, bind, reading, ret; simpl. now rewrite Hk, Hc.
    + exists false. unfold setValue, bind, reading, ret; simpl. now rewrite Hk.
Qed.

Lemma actual_censor_run (c : censor_t) (g : heap -> outcome val) (path x : val)
    (h : heap) (calls : list (val * val)) :
  g h = Ret x ->
  actual_censor c g path (State h calls)
  = (Ret (censor_value c x path), State h (calls ++ censor_calls c x path)).
Proof.
  intros Hg. destruct c as [f|v]; unfold actual_censor, bind, reading, journal, ret; simpl.
  - now rewrite Hg.
  - now rewrite app_nil_r.
Qed.

(** ** Own properties: lookup and update *)

Lemma assoc_app_fresh (key : string) (done rest : list (string * val)) :
  key ∉ map fst done -> assoc key (done ++ rest) = assoc key rest.
Proof.
  induction done as [|[k x] done IH]; simpl; intros Hfresh; [reflexivity|].
  apply not_elem_of_cons in Hfresh as [Hne Hfresh].
  destruct (String.eqb_spec k key) as [->|_]; [contradiction | auto].
Qed.

Lemma upsert_app_fresh (key : string) (v : val) (done rest : list (string * val)) :
  key ∉ map fst done -> upsert key v (done ++ rest) = done ++ upsert key v rest.
Proof.
  induction done as [|[k x] done IH]; simpl; intros Hfresh; [reflexivity|].
  apply not_elem_of_cons in Hfresh as [Hne Hfresh].
  destruct (String.eqb_spec k key) as [->|_]; [contradiction | now rewrite IH].
Qed.

Lemma arr_slot_index (es : list val) (props : list (string * val)) (i : nat) :
  i < length es ->
  arr_slot (Obj (SArr es) props) (string_of_nat i) = Some (es, i).
Proof.
  intros Hi. unfold arr_slot; simpl. rewrite index_of_key_string_of_nat.
  now rewrite decide_True.
Qed.

Lemma arr_slot_not_array (o : obj) (key : string) :
  (forall es, oshape o <> SArr es) -> arr_slot o key = None.
Proof.
  intros Hshape. unfold arr_slot. destruct (oshape o); try reflexivity.
  now destruct (Hshape elems).
Qed.

Lemma lookup_obj_Some (h : heap) (l : loc) (o : obj) :
  h !! l = Some o -> lookup_obj h l = o.
Proof. unfold lookup_obj. now intros ->. Qed.

Lemma lookup_obj_insert (h : heap) (l : loc) (o : obj) :
  l < length h -> lookup_obj (<[l := o]> h) l = o.
Proof. intros Hl. unfold lookup_obj. now rewrite list_lookup_insert_eq. Qed.

Section terminal.
Variables (c : censor_t) (path : string) (l : loc).

(** The index loop, after [done] has been replaced and with [todo] ahead. *)
Lemma elem_loop (todo : list val) :
  forall (done : list val) (props : list (string * val)) (h : heap)
         (calls : list (val * val)),
    h !! l = Some (Obj (SArr (done ++ todo)) props) ->
    for_each (seq (length done) (length todo)) (elem_body c path l) (State h calls)
    = (Ret tt,
       State (<[l := Obj (SArr (done ++ imap (fun j => (censor_elem c path) (length done + j)) todo)) props]> h)
             (calls ++ mjoin (imap (fun j x =>
                 censor_calls c x ((star_path path) (string_of_nat (length done + j)))) todo))).
Proof.
  induction todo as [|x todo IH]; intros done props h calls Hl.
  - simpl. unfold ret. rewrite !app_nil_r. rewrite app_nil_r in Hl.
    now rewrite list_insert_id.
  - assert (Hlen : l < length h) by (eapply lookup_lt_Some; eauto).
    assert (Hi : length done < length (done ++ x :: todo))
      by (rewrite length_app; simpl; lia).
    cbn [length seq for_each]. unfold bind at 1. unfold elem_body at 1.
    unfold bind at 1.
    erewrite actual_censor_run; cycle 1.
    { unfold arr_get, get_prop. rewrite (lookup_obj_Some _ _ _ Hl).
      unfold get_own. rewrite arr_slot_index by exact Hi.
      rewrite lookup_app_r by lia. rewrite Nat.sub_diag. reflexivity. }
    unfold arr_set, set_prop, update_obj. cbn [st_heap st_calls].
    rewrite (lookup_obj_Some _ _ _ Hl).
    unfold set_own. rewrite arr_slot_index by exact Hi. cbn [oprops].
    change (default VUndef ((x :: todo) !! 0)) with x.
    set (v := censor_value c x ((star_path path) (string_of_nat (length done)))).
    assert (Hins : <[length done := v]> (done ++ x :: todo) = (done ++ [v]) ++ todo).
    { rewrite insert_app_r_alt by lia. rewrite Nat.sub_diag. simpl.
      now rewrite <- app_assoc. }
    rewrite Hins.
    specialize (IH (done ++ [v]) props
      (<[l := Obj (SArr ((done ++ [v]) ++ todo)) props]> h)
      (calls ++ censor_calls c x ((star_path path) (string_of_nat (length done))))).
    rewrite length_app in IH. simpl in IH.
    replace (length done + 1) with (S (length done)) in IH by lia.
    rewrite IH by (now rewrite list_lookup_insert_eq).
    rewrite list_insert_insert_eq. f_equal. f_equal.
    + f_equal. f_equal. f_equal. rewrite <- app_assoc. simpl. f_equal.
      unfold censor_elem at 2. rewrite Nat.add_0_r. fold v. f_equal.
      apply imap_ext. intros j y _. simpl. f_equal. lia.
    + rewrite <- app_assoc. f_equal. simpl. rewrite Nat.add_0_r. f_equal.
      f_equal. apply imap_ext. intros j y _. simpl. do 3 f_equal. lia.
Qed.

(** The property loop, on an object that is not an array. *)
Lemma prop_loop (todo : list (string * val)) :
  forall (done : list (string * val)) (sh : shape) (h : heap)
         (calls : list (val * val)),
    h !! l = Some (Obj sh (done ++ todo)) ->
    (forall es, sh <> SArr es) ->
    NoDup (map fst (done ++ todo)) ->
    for_each (map fst todo) (prop_body c path l) (State h calls)
    = (Ret tt,
       State (<[l := Obj sh (done ++ map (censor_prop c path) todo)]> h)
             (calls ++ mjoin (map (fun kv => censor_calls c kv.2 ((star_path path) kv.1)) todo))).
Proof.
  induction todo as [|[k x] todo IH]; intros done sh h calls Hl Hsh Hnd.
  - simpl. unfold ret. rewrite !app_nil_r. rewrite app_nil_r in Hl.
    now rewrite list_insert_id.
  - assert (Hlen : l < length h) by (eapply lookup_lt_Some; eauto).
    assert (Hfresh : k ∉ map fst done).
    { rewrite map_app in Hnd. apply NoDup_app in Hnd as (_ & Hdisj & _).
      intros Hin. apply (Hdisj k Hin). simpl. left. }
    cbn [map fst for_each]. unfold bind at 1. unfold prop_body at 1.
    unfold bind at 1.
    erewrite actual_censor_run; cycle 1.
    { unfold get_prop. rewrite (lookup_obj_Some _ _ _ Hl).
      unfold get_own. rewrite arr_slot_not_array by exact Hsh. cbn [oprops].
      rewrite assoc_app_fresh by exact Hfresh. simpl.
      rewrite String.eqb_refl. reflexivity. }
    unfold set_prop, update_obj. cbn [st_heap st_calls].
    rewrite (lookup_obj_Some _ _ _ Hl).
    unfold set_own. rewrite arr_slot_not_array by exact Hsh. cbn [oprops oshape].
    rewrite upsert_app_fresh by exact Hfresh. simpl upsert.
    rewrite String.eqb_refl.
    set (v := censor_value c x ((star_path path) k)).
    assert (Happ : done ++ (k, v) :: todo = (done ++ [(k, v)]) ++ todo)
      by now rewrite <- app_assoc.
    rewrite Happ.
    rewrite (IH (done ++ [(k, v)]) sh
      (<[l := Obj sh ((done ++ [(k, v)]) ++ todo)]> h)
      (calls ++ censor_calls c x ((star_path path) k))); cycle 1.
    { now rewrite list_lookup_insert_eq. }
    { exact Hsh. }
    { rewrite <- Happ. revert Hnd. rewrite !map_app. simpl. exact (fun H => H). }
    rewrite list_insert_insert_eq. f_equal. f_equal.
    + now rewrite <- !app_assoc.
    + now rewrite <- app_assoc.
Qed.
End terminal.







Section protect.
Variable P : loc -> Prop.





Lemma safe_weaken {A} (m : M A) (Q R : A -> Prop) :
  (safe P) m Q -> (forall a, Q a -> R a) -> (safe P) m R.
Proof.
  intros Hm HQR h0 st Hg. destruct (Hm h0 st Hg) as [Hg' HQ].
  split; [exact Hg' | intros a Ha; apply HQR, HQ, Ha].
Qed.









End protect.

Section protect_redaction.
Variable P : loc -> Prop.






End protect_redaction.

Lemma Forall2_Forall_r {A B} (R R' : A -> B -> Prop) (Q : B -> Prop)
    (xs : list A) (ys : list B) :
  Forall Q ys -> (forall x y, Q y -> R x y -> R' x y) ->
  Forall2 R xs ys -> Forall2 R' xs ys.
Proof.
  intros HQ Himp H. induction H as [|x y xs ys Hxy H IH]; [constructor|].
  apply Forall_cons in HQ as [Hy HQ]. constructor; auto.
Qed.

(** A representation only depends on the locations it uses. *)
Lemma repr_in_mono (t : tree) :
  forall lo hi lo' hi' (h h' : heap) v,
    repr_in lo hi h v t ->
    lo' <= lo -> hi <= hi' ->
    (forall l, lo <= l < hi -> h' !! l = h !! l) ->
    repr_in lo' hi' h' v t.
Proof.
  induction t as [x|z|items IH|fields IH] using tree_rect';
    intros lo hi lo' hi' h h' v Hr Hlo Hhi Hsame; inversion Hr; subst.
  - now constructor.
  - constructor; [lia | rewrite Hsame; auto].
  - econstructor; [lia | rewrite Hsame; eauto |].
    eapply Forall2_Forall_r; [exact IH | | eassumption].
    intros x y Hy Hxy. simpl in Hy. eapply Hy; eauto.
  - econstructor; [lia | rewrite Hsame; eauto | assumption | assumption |].
    eapply Forall2_Forall_r; [exact IH | | eassumption].
    intros x y Hy Hxy. simpl in Hy. eapply Hy; eauto.
Qed.

Lemma repr_in_within (lo hi : nat) (h : heap) (v : val) (t : tree) :
  repr_in lo hi h v t -> within lo hi v.
Proof.
  intros Hr. inversion Hr as [x Hx| | |]; subst; simpl; auto.
  destruct v; simpl; auto. discriminate Hx.
Qed.

Lemma repr_in_scalar (lo hi : nat) (h : heap) (v : val) (t : tree) :
  repr_in lo hi h v t -> is_scalar v = true -> t = TLeaf v.
Proof. intros Hr Hs. inversion Hr; subst; try discriminate. reflexivity. Qed.

Lemma depth_item (items : list tree) (t : tree) :
  t ∈ items -> depth t < depth (TArr items).
Proof.
  simpl. induction items as [|x items IH]; intros Hin; [now apply elem_of_nil in Hin|].
  apply elem_of_cons in Hin as [->|Hin]; simpl; [lia|].
  specialize (IH Hin). lia.
Qed.

Lemma depth_field (fields : list (string * tree)) (t : tree) :
  t ∈ map snd fields -> depth t < depth (TObj fields).
Proof.
  simpl. induction fields as [|[k x] fields IH]; intros Hin; [now apply elem_of_nil in Hin|].
  simpl in Hin. apply elem_of_cons in Hin as [->|Hin]; simpl; [lia|].
  specialize (IH Hin). lia.
Qed.

(** ** deepClone builds a fresh, closed copy *)

Lemma prefix_lookup_lt (h h' : heap) (l : loc) :
  h `prefix_of` h' -> l < length h -> h' !! l = h !! l.
Proof. intros [k ->] Hl. now apply lookup_app_l. Qed.

Lemma prefix_insert_above (h h' : heap) (l : loc) (o : obj) :
  h `prefix_of` h' -> length h <= l -> h `prefix_of` <[l := o]> h'.
Proof.
  intros [k ->] Hl. exists (<[l - length h := o]> k).
  now rewrite insert_app_r_alt.
Qed.

Lemma within_mono (lo hi lo' hi' : nat) (v : val) :
  within lo hi v -> lo' <= lo -> hi <= hi' -> within lo' hi' v.
Proof. destruct v; simpl; auto. lia. Qed.

Lemma closed_empty (n : nat) (h : heap) : closed n n h.
Proof. intros l o Hl. lia. Qed.

Lemma closed_same (lo hi : nat) (h h' : heap) :
  closed lo hi h -> (forall l, lo <= l < hi -> h' !! l = h !! l) -> closed lo hi h'.
Proof. intros Hc Hsame l o Hl Hlook. rewrite Hsame in Hlook by exact Hl. eapply Hc; eauto. Qed.

Lemma closed_join (lo mid hi : nat) (h : heap) :
  closed lo mid h -> closed mid hi h -> lo <= mid <= hi -> closed lo hi h.
Proof.
  intros H1 H2 Hm l o Hl Hlook.
  destruct (decide (l < mid)).
  - eapply Forall_impl; [eapply H1; eauto; lia|].
    intros v Hv. eapply within_mono; eauto; lia.
  - eapply Forall_impl; [eapply H2; eauto; lia|].
    intros v Hv. eapply within_mono; eauto; lia.
Qed.

Lemma closed_widen (lo lo' hi hi' : nat) (h : heap) :
  closed lo hi h -> lo' <= lo -> hi <= hi' ->
  (forall l o, (lo' <= l < lo \/ hi <= l < hi') -> h !! l = Some o ->
               Forall (within lo' hi') (children o)) ->
  closed lo' hi' h.
Proof.
  intros Hc Hlo Hhi Hrest l o Hl Hlook.
  destruct (decide (lo <= l < hi)) as [Hin|Hout].
  - eapply Forall_impl; [eapply Hc; eauto|].
    intros v Hv. apply (within_mono _ _ _ _ v Hv); lia.
  - eapply Hrest; eauto. lia.
Qed.

Lemma clone_items (fuel : nat) (lo hi : nat) (h0 : heap) :
  clones_well fuel -> hi <= length h0 ->
  forall vs items,
    Forall2 (repr_in lo hi h0) vs items ->
    Forall (fun t => depth t < fuel) items ->
    forall (h : heap) calls,
      h0 `prefix_of` h ->
      exists vs' h',
        map_m (deepClone fuel) vs (State h calls) = (Ret vs', State h' calls)
        /\ h `prefix_of` h'
        /\ Forall2 (repr_in (length h) (length h') h') vs' items
        /\ closed (length h) (length h') h'.
Proof.
  intros IH Hhi vs items Hall. induction Hall as [|v t vs items Hv Hall IHl];
    intros Hd h calls Hpre.
  - exists [], h. simpl. unfold ret. repeat split; auto using closed_empty.
  - apply Forall_cons in Hd as [Hdt Hd].
    assert (Hv' : repr_in lo hi h v t).
    { eapply repr_in_mono; eauto. intros l Hl. apply prefix_lookup_lt; [auto | lia]. }
    assert (Hlen : length h0 <= length h) by now apply prefix_length.
    destruct (IH t v lo hi h calls Hv' ltac:(lia) Hdt) as (v' & h1 & Hrun1 & Hp1 & Hr1 & Hc1).
    destruct (IHl Hd h1 calls ltac:(etrans; eauto)) as (vs' & h2 & Hrun2 & Hp2 & Hr2 & Hc2).
    pose proof (prefix_length _ _ Hp1) as Hl1.
    pose proof (prefix_length _ _ Hp2) as Hl2.
    exists (v' :: vs'), h2. simpl. unfold bind at 1. rewrite Hrun1.
    unfold bind at 1. rewrite Hrun2. unfold ret.
    split; [reflexivity|]. split; [etrans; eauto|]. split.
    + constructor.
      * eapply repr_in_mono; eauto. intros l Hl. apply prefix_lookup_lt; [auto | lia].
      * eapply Forall2_impl; [exact Hr2|].
        intros x y Hxy. eapply repr_in_mono; eauto.
    + eapply closed_join with (mid := length h1); [| exact Hc2 | lia].
      eapply closed_same; [exact Hc1|].
      intros l Hl. apply prefix_lookup_lt; [auto | lia].
Qed.

Lemma insert_lookup_other (h : heap) (c l : loc) (o : obj) :
  l <> c -> <[c := o]> h !! l = h !! l.
Proof. intros Hne. now apply list_lookup_insert_ne. Qed.

Lemma clone_fields (fuel : nat) (lo hi : nat) (h0 : heap) (v : val) (l c : loc)
    (src : list (string * val)) :
  clones_well fuel -> hi <= length h0 -> v = VRef l ->
  h0 !! l = Some (Obj SPlain src) -> NoDup (map fst src) -> length h0 <= c ->
  forall todo fields_todo,
    map fst todo = map fst fields_todo ->
    Forall2 (repr_in lo hi h0) (map snd todo) (map snd fields_todo) ->
    Forall (fun t => depth t < fuel) (map snd fields_todo) ->
    forall done_src done fields_done (h : heap) calls,
      src = done_src ++ todo ->
      h0 `prefix_of` h -> c < length h -> h !! c = Some (Obj SPlain done) ->
      map fst done = map fst done_src ->
      Forall2 (repr_in (S c) (length h) h) (map snd done) (map snd fields_done) ->
      closed (S c) (length h) h ->
      exists h' rest,
        for_each (map fst todo) (fun key =>
          let* x := reading (fun h => get_prop h v key) in
          let* x' := deepClone fuel x in
          set_prop (VRef c) key x') (State h calls) = (Ret tt, State h' calls)
        /\ h0 `prefix_of` h' /\ length h <= length h'
        /\ h' !! c = Some (Obj SPlain (done ++ rest))
        /\ map fst rest = map fst todo
        /\ Forall2 (repr_in (S c) (length h') h') (map snd (done ++ rest))
                   (map snd (fields_done ++ fields_todo))
        /\ closed (S c) (length h') h'.
Proof.
  intros IH Hhi -> Hsrc Hnd Hc.
  induction todo as [|[k x] todo IHt]; intros fields_todo Hkeys Hvals Hdepth
    done_src done fields_done h calls Hsplit Hpre Hclen Hcl Hdk Hdone Hclosed.
  - destruct fields_todo; [|discriminate].
    exists h, []. simpl. unfold ret. rewrite !app_nil_r.
    repeat split; auto.
  - destruct fields_todo as [|[k' t] fields_todo]; [discriminate|].
    simpl in Hkeys. injection Hkeys as <- Hkeys.
    simpl in Hvals. apply Forall2_cons in Hvals as [Hx Hvals].
    simpl in Hdepth. apply Forall_cons in Hdepth as [Hdt Hdepth].
    assert (Hlen0 : length h0 <= length h) by now apply prefix_length.
    assert (Hfresh : k ∉ map fst done_src).
    { subst src. rewrite map_app in Hnd. apply NoDup_app in Hnd as (_ & Hdisj & _).
      intros Hin. apply (Hdisj k Hin). simpl. left. }
    assert (Hl : l < length h0) by (eapply lookup_lt_Some; eauto).
    (* reading the source property *)
    assert (Hget : get_prop h (VRef l) k = Ret x).
    { unfold get_prop. f_equal. unfold lookup_obj.
      rewrite (prefix_lookup_lt h0 h l Hpre Hl), Hsrc. simpl.
      unfold get_own. rewrite arr_slot_not_array by discriminate. simpl.
      subst src. rewrite assoc_app_fresh by exact Hfresh. simpl.
      now rewrite String.eqb_refl. }
    (* cloning it *)
    assert (Hx' : repr_in lo hi h x t).
    { eapply repr_in_mono; eauto. intros i Hi. apply prefix_lookup_lt; [auto | lia]. }
    destruct (IH t x lo hi h calls Hx' ltac:(lia) Hdt) as (x' & h1 & Hrun1 & Hp1 & Hr1 & Hc1).
    pose proof (prefix_length _ _ Hp1) as Hl1.
    (* storing the copy *)
    set (h2 := <[c := Obj SPlain (done ++ [(k, x')])]> h1).
    assert (Hbody :
      (let* x := reading (fun h => get_prop h (VRef l) k) in
       let* x' := deepClone fuel x in set_prop (VRef c) k x') (State h calls)
      = (Ret tt, State h2 calls)).
    { unfold bind at 1, reading at 1. cbn [st_heap]. rewrite Hget.
      unfold bind at 1. rewrite Hrun1.
      unfold set_prop, update_obj. cbn [st_heap st_calls]. unfold lookup_obj.
      rewrite (prefix_lookup_lt h h1 c Hp1 Hclen), Hcl. simpl.
      unfold set_own. rewrite arr_slot_not_array by discriminate. cbn [oshape oprops].
      rewrite <- (app_nil_r done) at 1.
      rewrite upsert_app_fresh by (rewrite Hdk; exact Hfresh). reflexivity. }
    assert (Hlen2 : length h2 = length h1) by (unfold h2; now rewrite length_insert).
    assert (Hsame2 : forall i, i <> c -> h2 !! i = h1 !! i).
    { intros i Hi. unfold h2. now apply list_lookup_insert_ne. }
    destruct (IHt fields_todo Hkeys Hvals Hdepth (done_src ++ [(k, x)])
                (done ++ [(k, x')]) (fields_done ++ [(k, t)]) h2 calls)
      as (h' & rest & Hrun & Hp' & Hlen' & Hcl' & Hk' & Hr' & Hc').
    + subst src. now rewrite <- app_assoc.
    + unfold h2. apply prefix_insert_above; [etrans; eauto | exact Hc].
    + lia.
    + unfold h2. rewrite list_lookup_insert_eq by lia. reflexivity.
    + rewrite !map_app, Hdk. reflexivity.
    + rewrite !map_app. simpl. apply Forall2_app.
      * eapply Forall2_impl; [exact Hdone|]. intros a b Hab.
        apply (repr_in_mono b (S c) (length h) (S c) (length h2) h h2 a Hab); [lia | lia |].
        intros i Hi. rewrite Hsame2 by lia. apply prefix_lookup_lt; [auto | lia].
      * constructor; [|constructor].
        apply (repr_in_mono t (length h) (length h1) (S c) (length h2) h1 h2 x' Hr1);
          [lia | lia |].
        intros i Hi. apply Hsame2. lia.
    + rewrite Hlen2. eapply closed_join with (mid := length h); [| | lia].
      * eapply closed_same; [exact Hclosed|].
        intros i Hi. rewrite Hsame2 by lia. apply prefix_lookup_lt; [auto | lia].
      * eapply closed_same; [exact Hc1|]. intros i Hi. apply Hsame2. lia.
    + exists h', ((k, x') :: rest). cbn [map fst for_each].
      unfold bind at 1. rewrite Hbody.
      split; [exact Hrun|]. split; [exact Hp'|]. split; [lia|].
      split; [now rewrite <- app_assoc in Hcl'|].
      split; [simpl; now f_equal|].
      split; [|exact Hc'].
      rewrite <- !app_assoc in Hr'. exact Hr'.
Qed.

Lemma Forall2_within (lo hi : nat) (h : heap) (vs : list val) (items : list tree) :
  Forall2 (repr_in lo hi h) vs items -> Forall (within lo hi) vs.
Proof.
  intros H. induction H; constructor; eauto using repr_in_within.
Qed.

Lemma deepClone_clones_well (fuel : nat) : clones_well fuel.
Proof.
  induction fuel as [|fuel IH]; intros t v lo hi h calls Hr Hhi Hd; [lia|].
  inversion Hr as [x Hx | l z Hl Hlook | l vs items Hl Hlook Hitems
                  | l props fields Hl Hlook Hnd Hkeys Hvals]; subst.
  - (* a scalar is returned as it is *)
    exists v, h. split.
    { destruct v; try reflexivity. discriminate Hx. }
    split; [reflexivity|]. split; [now constructor | apply closed_empty].
  - (* a date *)
    exists (VRef (length h)), (h ++ [Obj (SDate z) []]).
    assert (Hlen : length (h ++ [Obj (SDate z) []]) = S (length h))
      by (rewrite length_app; simpl; lia).
    split.
    { simpl. unfold bind, reading, alloc. cbn [st_heap st_calls].
      now rewrite (lookup_obj_Some _ _ _ Hlook). }
    split; [now apply prefix_app_r|]. split.
    + constructor; [lia|]. rewrite lookup_app_r by lia.
      now rewrite Nat.sub_diag.
    + intros i o Hi Hio. rewrite Hlen in Hi. assert (i = length h) as -> by lia.
      rewrite lookup_app_r, Nat.sub_diag in Hio by lia. injection Hio as <-.
      constructor.
  - (* an array *)
    destruct (clone_items fuel lo hi h IH Hhi vs items Hitems) with (h := h) (calls := calls)
      as (vs' & h1 & Hrun & Hp1 & Hr1 & Hc1); [|reflexivity|].
    { apply Forall_forall. intros x Hin. pose proof (depth_item _ _ Hin). lia. }
    pose proof (prefix_length _ _ Hp1) as Hl1.
    exists (VRef (length h1)), (h1 ++ [Obj (SArr vs') []]).
    assert (Hlen : length (h1 ++ [Obj (SArr vs') []]) = S (length h1))
      by (rewrite length_app; simpl; lia).
    split.
    { simpl. unfold bind at 1, reading at 1. cbn [st_heap st_calls].
      rewrite (lookup_obj_Some _ _ _ Hlook). cbn [oshape].
      unfold bind at 1. rewrite Hrun. reflexivity. }
    split; [etrans; [exact Hp1 | now apply prefix_app_r]|]. split.
    + econstructor; [lia | |].
      * rewrite lookup_app_r by lia. now rewrite Nat.sub_diag.
      * eapply Forall2_impl; [exact Hr1|]. intros a b Hab.
        apply (repr_in_mono b _ _ _ _ h1 _ a Hab); [lia | lia |].
        intros i Hi. apply lookup_app_l. lia.
    + rewrite Hlen. apply closed_widen with (lo := length h) (hi := length h1); [| lia | lia |].
      * eapply closed_same; [exact Hc1|]. intros i Hi. apply lookup_app_l. lia.
      * intros i o Hi Hio. assert (i = length h1) as -> by lia.
        rewrite lookup_app_r, Nat.sub_diag in Hio by lia. injection Hio as <-.
        unfold children. simpl. rewrite app_nil_r.
        eapply Forall_impl; [exact (Forall2_within _ _ _ _ _ Hr1)|].
        intros a Ha. apply (within_mono _ _ _ _ a Ha); lia.
  - (* a plain object *)
    set (c := length h).
    set (h1 := h ++ [Obj SPlain []]).
    assert (Hlen1 : length h1 = S c) by (unfold h1; rewrite length_app; simpl; lia).
    destruct (clone_fields fuel lo hi h (VRef l) l c props IH Hhi eq_refl Hlook Hnd
                ltac:(unfold c; lia) props fields Hkeys Hvals) with
        (done_src := @nil (string * val)) (done := @nil (string * val))
        (fields_done := @nil (string * tree)) (h := h1) (calls := calls)
      as (h' & rest & Hrun & Hp' & Hlen' & Hcl' & Hk' & Hr' & Hc').
    { apply Forall_forall. intros x Hin. pose proof (depth_field _ _ Hin). lia. }
    { reflexivity. }
    { now apply prefix_app_r. }
    { lia. }
    { unfold h1, c. rewrite lookup_app_r by lia. now rewrite Nat.sub_diag. }
    { reflexivity. }
    { constructor. }
    { rewrite Hlen1. apply closed_empty. }
    simpl in Hcl', Hr'.
    exists (VRef c), h'.
    split.
    { cbn [deepClone]. unfold bind at 1, reading at 1. cbn [st_heap st_calls].
      rewrite (lookup_obj_Some _ _ _ Hlook). cbn [oshape oprops].
      unfold bind at 1, alloc at 1. cbn [st_heap st_calls].
      fold c. fold h1. unfold bind at 1. rewrite Hrun. reflexivity. }
    split; [exact Hp'|]. split.
    + econstructor; [fold c; lia | exact Hcl' | now rewrite Hk' | now rewrite Hk' |].
      eapply Forall2_impl; [exact Hr'|]. intros a b Hab.
      apply (repr_in_mono b _ _ _ _ h' _ a Hab); [unfold c; lia | lia | auto].
    + fold c. apply closed_widen with (lo := S c) (hi := length h'); [exact Hc' | lia | lia |].
      intros i o Hi Hio. assert (i = c) as -> by lia.
      rewrite Hcl' in Hio. injection Hio as <-.
      unfold children. simpl.
      eapply Forall_impl; [exact (Forall2_within _ _ _ _ _ Hr')|].
      intros a Ha. apply (within_mono _ _ _ _ a Ha); lia.
Qed.

(** ** Scalars at the root *)

Lemma scalar_not_container (h : heap) (v : val) :
  is_scalar v = true -> is_array h v = false /\ is_object h v = false.
Proof. destruct v; try discriminate; intros _; split; reflexivity. Qed.

Lemma get_prop_scalar (h : heap) (v x : val) (key : string) :
  is_scalar v = true -> get_prop h v key = Ret x -> is_scalar x = true.
Proof.
  destruct v; simpl; try discriminate; intros _; try (now intros [= <-]).
  intros [= <-]. unfold char_at. destruct (index_of_key key); [|reflexivity].
  destruct (String.get _ s); reflexivity.
Qed.

Lemma follow_scalar (h : heap) (ps : list string) :
  forall current x,
    is_scalar current = true -> follow h current ps = Ret (Some x) ->
    is_scalar x = true.
Proof.
  induction ps as [|part rest IH]; intros current x Hs; simpl.
  - now intros [= <-].
  - destruct (is_nullish current); [discriminate|].
    destruct (get_prop h current part) as [next| |] eqn:E; try discriminate.
    apply IH. eapply get_prop_scalar; eauto.
Qed.

(** A wildcard path finds nothing to do in a scalar. *)
Lemma redactWildcardPath_scalar (root : val) (parts : list string) (c : censor_t)
    (s : string) (st : state) :
  is_scalar root = true ->
  redactWildcardPath root parts c s st = (Ret tt, st).
Proof.
  intros Hs. unfold redactWildcardPath.
  destruct (index_of_wildcard parts) as [wi|]; [|reflexivity].
  destruct (wi =? length parts - 1).
  - unfold bind at 1, reading at 1.
    destruct (follow_total (st_heap st) (removelast parts) root) as [r Hr]. rewrite Hr.
    destruct r as [current|]; [|reflexivity].
    pose proof (follow_scalar _ _ _ _ Hs Hr) as Hc.
    destruct (scalar_not_container (st_heap st) current Hc) as [Ha Ho].
    unfold bind, reading. now rewrite Ha, Ho.
  - unfold redactIntermediateWildcard.
    destruct (length (beforeWildcard parts wi) =? 0) eqn:Hlen.
    + apply Nat.eqb_eq in Hlen. simpl. rewrite Hlen. simpl.
      destruct (scalar_not_container (st_heap st) root Hs) as [Ha Ho].
      unfold bind, reading. now rewrite Ha, Ho.
    + unfold bind at 1, reading at 1.
      destruct (follow_total (st_heap st) (beforeWildcard parts wi) root) as [r Hr].
      rewrite Hr. destruct r as [current|]; [|reflexivity].
      pose proof (follow_scalar _ _ _ _ Hs Hr) as Hc.
      destruct (is_nullish current); [reflexivity|].
      simpl. rewrite Nat.eqb_refl.
      destruct (scalar_not_container (st_heap st) current Hc) as [Ha Ho].
      unfold bind, reading. now rewrite Ha, Ho.
Qed.

(** The membership test of [setValue] throws on a scalar root. *)
Lemma setValue_scalar (root : val) (parts : list string) (value : val) (st : state) :
  is_scalar root = true -> last parts <> Some "*" ->
  setValue root parts value st = (Throw (TypeError InOperatorOnNonObject), st).
Proof.
  intros Hs Hlast. unfold setValue.
  destruct (removelast parts) as [|key rest] eqn:Hrm.
  - unfold bind at 1, reading at 1. simpl.
    rewrite bool_decide_eq_false_2 by exact Hlast.
    unfold bind, reading. destruct root; try discriminate; reflexivity.
  - unfold bind at 1, reading at 1. simpl.
    destruct root; try discriminate; reflexivity.
Qed.


Lemma deepClone_scalar (fuel : nat) (v : val) (st : state) :
  is_scalar v = true -> deepClone (S fuel) v st = (Ret v, st).
Proof. destruct v; try discriminate; reflexivity. Qed.

(** ** C9: the path grammar *)

Lemma includes_wildcard_elem (parts : list string) :
  includes_wildcard parts = true <-> "*" ∈ parts.
Proof.
  unfold includes_wildcard, is_wildcard. induction parts as [|p parts IH]; simpl.
  - split; [discriminate | intros H; now apply elem_of_nil in H].
  - rewrite orb_true_iff, IH, elem_of_cons. split.
    + intros [Hp|Hin]; [left; symmetry; now apply String.eqb_eq | now right].
    + intros [Hp|Hin]; [left; subst p; reflexivity | now right].
Qed.

(** C9.  Path parsing is one left-to-right pass: a dot outside brackets
    ends the current segment and empty segments are dropped; brackets
    delimit a segment whose matching quotes are stripped, and a dot inside
    brackets is an ordinary character; a segment is the wildcard exactly
    when it is ["*"] as a whole.  So every well-formed run of tokens parses
    to its non-empty contents, a leading dot is ignored, and the text
    [["weird-key"]["inner"]] parses to [weird-key], [inner]. *)
Theorem parsePath_follows_the_grammar (toks : list token) :
  forallb token_ok toks = true ->
  parsePath (render_all toks)
  = filter (fun s => nonempty s = true) (map content toks)
  /\ (forall p, parsePath ("." +:+ p) = parsePath p)
  /\ parsePath (render_all weird_key_path) = ["weird-key"; "inner"]
  /\ parsePath "['a.b'].c" = ["a.b"; "c"]
  /\ (forall p, includes_wildcard (parsePath p) = true <-> "*" ∈ parsePath p)
  /\ includes_wildcard (parsePath "a.*.b") = true
  /\ includes_wildcard (parsePath "a*.b") = false.
Proof.
  intros Hok.
  split; [|split; [|split; [|split; [|split; [|split]]]]].
  - unfold parsePath. pose proof (scan_tokens toks [] "" None Hok) as H.
    simpl in H. exact H.
  - intros p. reflexivity.
  - reflexivity.
  - reflexivity.
  - intros p. apply includes_wildcard_elem.
  - reflexivity.
  - reflexivity.
Qed.

Lemma parsePath_follows_the_grammar_witness :
  parsePath (render_all [Dotted "users"; Bracketed "0"; Quoted "'" "pass.word"; Dotted ""])
  = ["users"; "0"; "pass.word"].
Proof.
  exact (proj1 (parsePath_follows_the_grammar
    [Dotted "users"; Bracketed "0"; Quoted "'" "pass.word"; Dotted ""] eq_refl)).
Defined.

(** ** C2: construction-time validation *)

(** C2 asks that a path entry which is not a non-empty string, or which
    breaks the grammar, makes the factory fail.  The factory only checks
    that [paths] is an array: every array of entries is accepted as it is,
    among them [['a..b']], [['a[b']], [[123]] and [['']]. *)
Theorem slowRedact_accepts_any_path_entries :
  (forall entries censor serialize strict,
      exists cfg,
        slowRedact (Options (Some (PathsArray entries)) censor serialize strict) = Ret cfg
        /\ cfg_paths cfg = entries)
  /\ (exists cfg, slowRedact (Options (Some (PathsArray [PathStr "a..b"])) None None None) = Ret cfg)
  /\ (exists cfg, slowRedact (Options (Some (PathsArray [PathStr "a[b"])) None None None) = Ret cfg)
  /\ (exists cfg, slowRedact (Options (Some (PathsArray [PathNum 123])) None None None) = Ret cfg)
  /\ (exists cfg, slowRedact (Options (Some (PathsArray [PathStr ""])) None None None) = Ret cfg)
  /\ slowRedact (Options (Some PathsOther) None None None) = Throw (TypeError PathsNotArray).
Proof.
  split; [|repeat split; eexists; reflexivity].
  intros entries c s b. eexists. split; reflexivity.
Qed.

(** ** C7: strict mode and scalars *)

(** C7.  With strict mode on, which is the default, a value that is null,
    undefined or not of type object is neither cloned nor redacted: the heap
    and the censor journal stay as they were, and the result is the value
    passed through the serializer, or the value itself when serialization
    is disabled.  Under the default encoder, [42] comes back as the text
    [42]. *)
Theorem strict_mode_passes_scalars_through (cfg : config) (fuel : nat) (v : val)
    (st : state) :
  cfg_strict cfg = true ->
  is_object (st_heap st) v = false ->
  (forall f, cfg_serialize cfg = SerializeFun f ->
             redact cfg fuel v st = (f (st_heap st) v, st))
  /\ (cfg_serialize cfg = SerializeVal (VBool false) ->
      redact cfg fuel v st = (Ret v, st))
  /\ (forall o cfg', opt_strict o = None -> slowRedact o = Ret cfg' ->
        cfg_strict cfg' = true)
  /\ (forall cfg', slowRedact (Options None None None None) = Ret cfg' ->
        redact cfg' fuel (VNum 42) st = (Ret (VStr "42"), st)).
Proof.
  intros Hstrict Hobj.
  assert (Hrun : forall s, cfg_serialize cfg = s ->
             redact cfg fuel v st = serialize_or_raw s v st).
  { intros s Hs. unfold redact. rewrite Hstrict, Hs.
    unfold bind at 1, reading at 1.
    assert (Hflag : true && (bool_decide (v = VNull)
               || negb (bool_decide (typeof (st_heap st) v = TyObject))) = true).
    { destruct v; try reflexivity. revert Hobj. unfold is_object.
      intros ->. reflexivity. }
    rewrite Hflag. unfold bind at 1.
    destruct (is_nullish v) eqn:Hn.
    - unfold bind at 1. destruct (serialize_or_raw s v st) as [[r|e|] st']; reflexivity.
    - unfold bind at 1, reading at 1.
      assert (Hty : negb (bool_decide (typeof (st_heap st) v = TyObject)) = true).
      { destruct v; try reflexivity; try discriminate.
        revert Hobj. unfold is_object. intros ->. reflexivity. }
      rewrite Hty. unfold bind at 1.
      destruct (serialize_or_raw s v st) as [[r|e|] st']; reflexivity. }
  split; [|split; [|split]].
  - intros f Hf. rewrite (Hrun _ Hf). reflexivity.
  - intros Hs. rewrite (Hrun _ Hs). reflexivity.
  - intros o cfg' Ho. unfold slowRedact.
    destruct (default (PathsArray []) (opt_paths o)); [|discriminate].
    intros [= <-]. simpl. now rewrite Ho.
  - intros cfg' [= <-]. reflexivity.
Qed.

Lemma strict_mode_passes_scalars_through_witness :
  redact (Config [PathStr "test"] (CensorVal (VStr "[REDACTED]"))
            (SerializeFun JSON_stringify) true) 0 (VStr "primitive") (State [] [])
  = (JSON_stringify [] (VStr "primitive"), State [] []).
Proof.
  exact (proj1 (strict_mode_passes_scalars_through
    (Config [PathStr "test"] (CensorVal (VStr "[REDACTED]"))
       (SerializeFun JSON_stringify) true) 0 (VStr "primitive") (State [] [])
    eq_refl eq_refl) JSON_stringify eq_refl).
Defined.

(** ** C10: scalars without strict mode *)



(** ** Resolution only depends on the structure *)




Lemma is_object_repr (lo hi : nat) (h : list obj) (l : nat) (t : tree) :
  repr_in lo hi h (VRef l) t -> is_object h (VRef l) = true.
Proof.
  intros Hr. unfold is_object, typeof.
  inversion Hr as [x Hx| ? ? ? Hlook | ? ? ? ? Hlook ? | ? ? ? ? Hlook ? ? ?]; subst;
    try discriminate; now rewrite (lookup_obj_Some _ _ _ Hlook).
Qed.


(** ** The two copies [redact] makes of a structure *)

Lemma redact_on_structure (cfg : config) (fuel : nat) (h : list obj)
    (calls : list (val * val)) (v : val) (t : tree) :
  repr h v t -> is_scalar v = false -> depth t < fuel ->
  exists cloned original (h1 h2 : list obj),
    h `prefix_of` h1 /\ h1 `prefix_of` h2
    /\ repr_in (length h) (length h1) h1 cloned t
    /\ closed (length h) (length h1) h1
    /\ repr_in (length h1) (length h2) h2 original t
    /\ closed (length h1) (length h2) h2
    /\ redact cfg fuel v (State h calls)
       = (let* _ := redactPaths cloned (cfg_paths cfg) (cfg_censor cfg) in
          deliver cfg cloned original) (State h2 calls).
Proof.
  intros Hr Hv Hd. unfold repr in Hr.
  destruct (deepClone_clones_well fuel t v 0 (length h) h calls Hr ltac:(lia) Hd)
    as (cloned & h1 & Hrun1 & Hp1 & Hr1 & Hc1).
  assert (Hr' : repr_in 0 (length h) h1 v t).
  { eapply repr_in_mono; eauto. intros l Hl. apply prefix_lookup_lt; [auto | lia]. }
  pose proof (prefix_length _ _ Hp1) as Hlen1.
  destruct (deepClone_clones_well fuel t v 0 (length h) h1 calls Hr' ltac:(lia) Hd)
    as (original & h2 & Hrun2 & Hp2 & Hr2 & Hc2).
  exists cloned, original, h1, h2. repeat (split; [assumption|]).
  destruct v as [| | | | |l]; try discriminate.
  unfold redact. unfold bind at 1, reading at 1. cbn [st_heap].
  assert (Hty : typeof h (VRef l) = TyObject).
  { pose proof (is_object_repr _ _ _ _ _ Hr) as Ho. unfold is_object in Ho.
    now apply bool_decide_eq_true in Ho. }
  rewrite Hty. rewrite bool_decide_eq_false_2 by discriminate.
  rewrite bool_decide_eq_true_2 by reflexivity. cbn [negb orb].
  rewrite andb_false_r. unfold bind at 1, ret at 1.
  unfold bind at 1. rewrite Hrun1. unfold bind at 1. rewrite Hrun2. reflexivity.
Qed.

(** ** One unresolved path, then a list of them *)



(** ** C8: paths that do not resolve *)



(** ** C5: the terminal wildcard *)



(** The same, seen from outside: [items.*] against [{items: [1, 2, 3]}]
    under the default configuration. *)
Example terminal_wildcard_example :
  (redact (default_config ["items.*"]) 3 (VRef 0) (State heap_items [])).1
  = JSON_stringify
      [Obj SPlain [("items", VRef 1)];
       Obj (SArr [VStr "[REDACTED]"; VStr "[REDACTED]"; VStr "[REDACTED]"]) []]
      (VRef 0).
Proof. reflexivity. Qed.


Lemma quiet_throw {A} (e : error) : quiet (@throw A e).
Proof. intros st. reflexivity. Qed.







Lemma index_of_wildcard_app (pre post : list string) :
  includes_wildcard pre = false ->
  index_of_wildcard (pre ++ "*" :: post) = Some (length pre).
Proof.
  induction pre as [|p pre IH]; simpl; [reflexivity|].
  intros H. apply orb_false_elim in H as [Hp Hpre].
  rewrite Hp, (IH Hpre). reflexivity.
Qed.


(** One unfolding of [traverse], at the wildcard position. *)
Lemma traverse_at_wildcard (c : censor_t) (parts : list string) (wi gas : nat)
    (current : val) (pathSoFar : list string) :
  length pathSoFar = length (beforeWildcard parts wi) ->
  traverse c parts wi (S gas) current pathSoFar
  = (let* arr := reading (fun h => Ret (is_array h current)) in
     if arr then
       let* n := reading (fun h => Ret (arr_length h current)) in
       for_each (seq 0 n) (fun i =>
         let* child := reading (fun h => arr_get h current i) in
         traverse c parts wi gas child (pathSoFar ++ [string_of_nat i]))
     else
       let* isobj := reading (fun h => Ret (is_object h current)) in
       if isobj then
         let* keys := reading (fun h => Ret (enum_keys h current)) in
         for_each keys (fun key =>
           let* child := reading (fun h => get_prop h current key) in
           traverse c parts wi gas child (pathSoFar ++ [key]))
       else ret tt).
Proof. intros Hlen. cbn [traverse]. rewrite Hlen, Nat.eqb_refl. reflexivity. Qed.






(** ** C4: the intermediate wildcard *)

(** C4 asks that a branch in which the suffix does not resolve be skipped
    in silence.  That holds for a branch that is an object; a branch that
    is a scalar makes [setValue] apply [in] to it, which throws.  On the
    input of the test suite, [data.*.nested] against
    [{data: {item1: 123, item2: {nested: 'secret'}}}], the call throws a
    TypeError where the test demands that it does not.  The claim's own
    examples, whose branches are all objects, behave as it says. *)
Theorem intermediate_wildcard_throws_on_scalar_branch :
  (redact (default_config ["data.*.nested"]) 4 (VRef 0) (State heap_data [])).1
  = Throw (TypeError InOperatorOnNonObject)
  /\ (forall c parts wi gas child pathSoFar st,
        is_scalar child = true ->
        length (beforeWildcard parts wi) < length pathSoFar ->
        last (afterWildcard parts wi) <> Some "*" ->
        (traverse c parts wi (S gas) child pathSoFar st).1
        = Throw (TypeError InOperatorOnNonObject))
  /\ (redact (default_config ["a.*.b"]) 4 (VRef 0) (State heap_a_xy [])).1
     = JSON_stringify
         [Obj SPlain [("a", VRef 1)]; Obj SPlain [("x", VRef 2); ("y", VRef 3)];
          Obj SPlain [("b", VStr "[REDACTED]")]; Obj SPlain [("b", VStr "[REDACTED]")]]
         (VRef 0)
  /\ (redact (default_config ["a.*.b"]) 4 (VRef 0) (State heap_a_list [])).1
     = JSON_stringify
         [Obj SPlain [("a", VRef 1)]; Obj (SArr [VRef 2; VRef 3]) [];
          Obj SPlain [("b", VStr "[REDACTED]")]; Obj SPlain [("b", VStr "[REDACTED]")]]
         (VRef 0).
Proof.
  split; [reflexivity|]. split; [|split; reflexivity].
  intros c parts wi gas child pathSoFar st Hs Hlen Hlast. cbn [traverse].
  rewrite (proj2 (Nat.eqb_neq _ _)) by lia.
  rewrite (proj2 (Nat.ltb_ge _ _)) by lia.
  destruct (getValue_total (st_heap st) (afterWildcard parts wi) child) as [v Hv].
  destruct st as [h calls]. unfold bind at 1.
  rewrite (actual_censor_run _ _ _ v) by exact Hv.
  unfold bind at 1. now rewrite setValue_scalar.
Qed.

(** ** C6: the censor function *)




(** ** After the two copies: what is sealed off *)

Lemma assoc_upsert_same (key : string) (x : val) (props : list (string * val)) :
  assoc key (upsert key x props) = Some x.
Proof.
  induction props as [|[k y] props IH]; simpl.
  - now rewrite String.eqb_refl.
  - destruct (String.eqb k key) eqn:E; simpl; now rewrite E.
Qed.

Lemma get_set_own_same (o : obj) (key : string) (x : val) :
  get_own (set_own o key x) key = x.
Proof.
  unfold set_own. destruct (arr_slot o key) as [[es i]|] eqn:E.
  - unfold arr_slot in E. destruct (oshape o) as [|es'|z|b]; try discriminate.
    destruct (index_of_key key) as [j|] eqn:Ej; try discriminate.
    destruct (decide (j < length es')); try discriminate.
    injection E as -> ->.
    unfold get_own, arr_slot. cbn [oshape]. rewrite Ej, length_insert.
    rewrite decide_True by assumption. now rewrite list_lookup_insert_eq.
  - unfold get_own.
    assert (E' : arr_slot (Obj (oshape o) (upsert key x (oprops o))) key = None).
    { revert E. unfold arr_slot. cbn [oshape]. exact (fun H => H). }
    rewrite E'. cbn [oprops]. now rewrite assoc_upsert_same.
Qed.

Lemma prefix_of_agree (h h' : list obj) :
  length h <= length h' -> (forall l, l < length h -> h' !! l = h !! l) ->
  h `prefix_of` h'.
Proof.
  intros Hlen Hsame. exists (drop (length h) h').
  rewrite <- (take_drop (length h) h') at 1. f_equal.
  apply list_eq. intros i. destruct (decide (i < length h)) as [Hi|Hi].
  - rewrite lookup_take_lt by exact Hi. now apply Hsame.
  - rewrite lookup_take_ge by lia. symmetry. apply lookup_ge_None. lia.
Qed.





(** ** C1: the caller's input *)


(** C1 promises that no invocation changes the caller's input.  The copy
    made by [deepClone] shares every function with the input, and
    [setValue] writes to the value [traverse] hands to it without asking
    whether it is such a shared function: [*.x] against [{f: fn}], where
    [fn.x] is [1], leaves the caller's [fn.x] redacted.  An object used as
    the censor is shared in the same way: with the input [o] itself as
    censor and the paths [a], [a.x], the caller's [o.x] ends up as [o]. *)
Theorem redact_mutates_what_the_copy_shares :
  getValue heap_fn (VRef 0) ["f"; "x"] = Ret (VNum 1)
  /\ getValue (st_heap (redact (default_config ["*.x"]) 3 (VRef 0) (State heap_fn [])).2)
       (VRef 0) ["f"; "x"]
     = Ret (VStr "[REDACTED]")
  /\ heap_fn !! 1 = Some (Obj (SFun FOpaque) [("x", VNum 1)])
  /\ st_heap (redact (default_config ["*.x"]) 3 (VRef 0) (State heap_fn [])).2 !! 1
     = Some (Obj (SFun FOpaque) [("x", VStr "[REDACTED]")])
  /\ st_heap (redact (Config [PathStr "a"; PathStr "a.x"] (CensorVal (VRef 0))
                        (SerializeVal (VBool false)) true)
                2 (VRef 0) (State heap_alias [])).2 !! 0
     = Some (Obj SPlain [("x", VRef 0); ("a", VNum 2)]).
Proof. repeat split; reflexivity. Qed.

(** ** C3: restore *)








(** ** The gas of [traverse] and the fuel of [redact] suffice *)

Lemma finishes_ret {A} (a : A) : finishes (ret a).
Proof. intros st. discriminate. Qed.

Lemma finishes_throw {A} (e : error) : finishes (@throw A e).
Proof. intros st. discriminate. Qed.

Lemma finishes_bind {A B} (m : M A) (k : A -> M B) :
  finishes m -> (forall a, finishes (k a)) -> finishes (bind m k).
Proof.
  intros Hm Hk st. unfold bind. specialize (Hm st).
  destruct (m st) as [[a|e|] st1]; simpl in *; [apply Hk | discriminate | contradiction].
Qed.

Lemma finishes_reading {A} (f : list obj -> outcome A) :
  (forall h, f h <> OutOfFuel) -> finishes (reading f).
Proof. intros Hf st. apply Hf. Qed.

Lemma finishes_for_each {A} (xs : list A) (body : A -> M unit) :
  (forall x, finishes (body x)) -> finishes (for_each xs body).
Proof.
  intros Hb. induction xs as [|x xs IH]; simpl; [apply finishes_ret|].
  apply finishes_bind; auto.
Qed.

Lemma finishes_set_prop (v x : val) (key : string) : finishes (set_prop v key x).
Proof. destruct v; intros st; discriminate. Qed.

Lemma get_prop_fuel (h : list obj) (v : val) (key : string) :
  get_prop h v key <> OutOfFuel.
Proof. destruct v; discriminate. Qed.

Lemma has_prop_fuel (h : list obj) (v : val) (key : string) :
  has_prop h v key <> OutOfFuel.
Proof. destruct v; discriminate. Qed.

Lemma getValue_fuel (h : list obj) (parts : list string) (v : val) :
  getValue h v parts <> OutOfFuel.
Proof. destruct (getValue_total h parts v) as [x ->]. discriminate. Qed.

Lemma follow_fuel (h : list obj) (ps : list string) (v : val) :
  follow h v ps <> OutOfFuel.
Proof. destruct (follow_total h ps v) as [x ->]. discriminate. Qed.

Lemma descend_fuel (h : list obj) (keys : list string) :
  forall v, descend h v keys <> OutOfFuel.
Proof.
  induction keys as [|key rest IH]; intros v; simpl; [discriminate|].
  destruct v; simpl; try discriminate.
  destruct (has_own _ key); [|discriminate].
  destruct (is_object h _); [apply IH | discriminate].
Qed.

Lemma finishes_actual_censor (c : censor_t) (g : list obj -> outcome val) (path : val) :
  (forall h, g h <> OutOfFuel) -> finishes (actual_censor c g path).
Proof.
  intros Hg. destruct c as [f|x]; simpl; [|apply finishes_ret].
  apply finishes_bind; [now apply finishes_reading|]. intros x.
  apply finishes_bind; [intros st; discriminate | intros; apply finishes_ret].
Qed.

Lemma finishes_setValue (obj : val) (parts : list string) (value : val) :
  finishes (setValue obj parts value).
Proof.
  unfold setValue.
  apply finishes_bind; [apply finishes_reading; intros h; apply descend_fuel|].
  intros [current|]; [|apply finishes_ret].
  apply finishes_bind; [|intros; apply finishes_ret].
  destruct (bool_decide (last parts = Some "*")).
  - apply finishes_bind; [apply finishes_reading; discriminate|]. intros [|].
    + apply finishes_bind; [apply finishes_reading; discriminate|]. intros n.
      apply finishes_for_each. intros i. apply finishes_set_prop.
    + apply finishes_bind; [apply finishes_reading; discriminate|].
      intros [|]; [|apply finishes_ret].
      apply finishes_bind; [apply finishes_reading; discriminate|]. intros keys.
      apply finishes_for_each. intros key. apply finishes_set_prop.
  - apply finishes_bind; [apply finishes_reading; intros h; apply has_prop_fuel|].
    intros [|]; [apply finishes_set_prop | apply finishes_ret].
Qed.

Lemma finishes_traverse_leaf (c : censor_t) (parts : list string) (wi gas : nat)
    (child : val) (pathSoFar : list string) :
  length (beforeWildcard parts wi) < length pathSoFar ->
  finishes (traverse c parts wi (S gas) child pathSoFar).
Proof.
  intros Hlen. cbn [traverse].
  rewrite (proj2 (Nat.eqb_neq _ _)) by lia.
  rewrite (proj2 (Nat.ltb_ge _ _)) by lia.
  apply finishes_bind.
  - apply finishes_actual_censor. intros h. apply getValue_fuel.
  - intros x. apply finishes_bind; [apply finishes_setValue | intros; apply finishes_ret].
Qed.

Lemma finishes_traverse (c : censor_t) (parts : list string) (wi gas : nat)
    (current : val) (pathSoFar : list string) :
  length pathSoFar = length (beforeWildcard parts wi) ->
  finishes (traverse c parts wi (S (S gas)) current pathSoFar).
Proof.
  intros Hlen. rewrite traverse_at_wildcard by exact Hlen.
  apply finishes_bind; [apply finishes_reading; discriminate|]. intros [|].
  - apply finishes_bind; [apply finishes_reading; discriminate|]. intros n.
    apply finishes_for_each. intros i.
    apply finishes_bind; [apply finishes_reading; intros h; apply get_prop_fuel|].
    intros child. apply finishes_traverse_leaf. rewrite length_app. simpl. lia.
  - apply finishes_bind; [apply finishes_reading; discriminate|].
    intros [|]; [|apply finishes_ret].
    apply finishes_bind; [apply finishes_reading; discriminate|]. intros keys.
    apply finishes_for_each. intros key.
    apply finishes_bind; [apply finishes_reading; intros h; apply get_prop_fuel|].
    intros child. apply finishes_traverse_leaf. rewrite length_app. simpl. lia.
Qed.

Lemma finishes_redactWildcardPath (obj : val) (parts : list string) (c : censor_t)
    (originalPath : string) :
  finishes (redactWildcardPath obj parts c originalPath).
Proof.
  unfold redactWildcardPath.
  destruct (index_of_wildcard parts) as [wi|]; [|apply finishes_ret].
  destruct (wi =? length parts - 1).
  - apply finishes_bind; [apply finishes_reading; intros h; apply follow_fuel|].
    intros [current|]; [|apply finishes_ret].
    apply finishes_bind; [apply finishes_reading; discriminate|]. intros [|].
    + apply finishes_bind; [apply finishes_reading; discriminate|]. intros n.
      apply finishes_for_each. intros i.
      apply finishes_bind; [|intros; apply finishes_set_prop].
      apply finishes_actual_censor. intros h. apply get_prop_fuel.
    + apply finishes_bind; [apply finishes_reading; discriminate|].
      intros [|]; [|apply finishes_ret].
      apply finishes_bind; [apply finishes_reading; discriminate|]. intros keys.
      apply finishes_for_each. intros key.
      apply finishes_bind; [|intros; apply finishes_set_prop].
      apply finishes_actual_censor. intros h. apply get_prop_fuel.
  - unfold redactIntermediateWildcard.
    destruct (length (beforeWildcard parts wi) =? 0) eqn:Hz.
    + apply finishes_traverse. apply Nat.eqb_eq in Hz. now rewrite Hz.
    + apply finishes_bind; [apply finishes_reading; intros h; apply follow_fuel|].
      intros [current|]; [|apply finishes_ret].
      destruct (is_nullish current); [apply finishes_ret|].
      now apply finishes_traverse.
Qed.

(** [redactPaths] always comes to an end: the gas given to [traverse] is
    never used up. *)
Lemma finishes_redactPaths (obj : val) (paths : list path_entry) (c : censor_t) :
  finishes (redactPaths obj paths c).
Proof.
  unfold redactPaths. apply finishes_for_each. intros path. unfold redact_one.
  apply finishes_bind; [apply finishes_reading; intros _; destruct path; discriminate|].
  intros parts. destruct (includes_wildcard parts).
  - destruct path; try apply finishes_ret. apply finishes_redactWildcardPath.
  - apply finishes_bind; [apply finishes_actual_censor; intros h; apply getValue_fuel|].
    intros x. apply finishes_bind; [apply finishes_setValue | intros; apply finishes_ret].
Qed.

(** On a structure, with fuel above its depth and serialization disabled,
    [redact] returns or throws. *)
Lemma redact_finishes (cfg : config) (fuel : nat) (h : list obj)
    (calls : list (val * val)) (v : val) (t : tree) :
  repr h v t -> is_scalar v = false -> depth t < fuel ->
  cfg_serialize cfg = SerializeVal (VBool false) ->
  (redact cfg fuel v (State h calls)).1 <> OutOfFuel.
Proof.
  intros Hr Hv Hd Hser.
  destruct (redact_on_structure cfg fuel h calls v t Hr Hv Hd)
    as (cloned & original & h1 & h2 & _ & _ & _ & _ & _ & _ & ->).
  apply finishes_bind; [apply finishes_redactPaths|].
  intros _. unfold deliver. rewrite Hser.
  apply finishes_bind; [intros st; discriminate|]. intros fn.
  apply finishes_bind; [apply finishes_set_prop | intros; apply finishes_ret].
Qed.

(** * Further properties of the code *)

(** ** parsePath on arbitrary text *)

Lemma flush_keeps_nonempty (parts : list string) (cur : string) :
  Forall (fun s => s <> "") parts -> Forall (fun s => s <> "") (flush parts cur).
Proof.
  intros H. unfold flush. destruct (String.eqb_spec cur ""); [exact H|].
  apply Forall_app. split; [exact H | now apply Forall_singleton].
Qed.

Lemma parse_step_keeps_nonempty (st : pstate) (c : ascii) :
  Forall (fun s => s <> "") (ps_parts st) ->
  Forall (fun s => s <> "") (ps_parts (parse_step st c)).
Proof.
  destruct st as [parts cur ib iq qc]; simpl. intros H.
  repeat match goal with
         | |- context [if ?b then _ else _] => destruct b; simpl
         end; auto using flush_keeps_nonempty.
Qed.

Lemma parse_loop_keeps_nonempty (p : string) :
  forall st,
    Forall (fun s => s <> "") (ps_parts st) ->
    Forall (fun s => s <> "") (ps_parts (parse_loop st p)).
Proof.
  induction p as [|c p IH]; intros st H; simpl; [exact H|].
  apply IH, parse_step_keeps_nonempty, H.
Qed.

(** X1.  Whatever the text, no segment [parsePath] returns is empty: a
    segment is only ever pushed when it holds a character. *)
Theorem parsePath_yields_no_empty_segment (p : string) :
  Forall (fun s => s <> "") (parsePath p).
Proof.
  unfold parsePath. apply flush_keeps_nonempty, parse_loop_keeps_nonempty.
  constructor.
Qed.

Lemma flush_app (done parts : list string) (cur : string) :
  flush (done ++ parts) cur = done ++ flush parts cur.
Proof.
  unfold flush. destruct (String.eqb cur ""); [reflexivity|].
  now rewrite app_assoc.
Qed.

(** The segments already pushed are never looked at again. *)
Lemma parse_step_pushed (done : list string) (st : pstate) (c : ascii) :
  parse_step (with_pushed done st) c = with_pushed done (parse_step st c).
Proof.
  pose proof (flush_app done) as Hf.
  destruct st as [parts cur ib iq qc]; unfold with_pushed; simpl.
  repeat match goal with
         | |- context [if ?b then _ else _] => destruct b; simpl
         end; now rewrite ?Hf.
Qed.

Lemma parse_loop_pushed (done : list string) (p : string) :
  forall st, parse_loop (with_pushed done st) p = with_pushed done (parse_loop st p).
Proof.
  induction p as [|c p IH]; intros st; cbn [parse_loop]; [reflexivity|].
  now rewrite parse_step_pushed, IH.
Qed.

(** Without an opening bracket the scanner never enters brackets, and
    quotes stay ordinary characters. *)
Lemma scan_outside_brackets (a : string) :
  forall parts cur,
    has_char "[" a = false ->
    exists parts' cur',
      parse_loop (PState parts cur false false None) a
      = PState parts' cur' false false None.
Proof.
  induction a as [|c a IH]; intros parts cur Hb; simpl.
  - now exists parts, cur.
  - apply has_char_cons in Hb as [Hb1 Hb2]. rewrite Hb1. simpl.
    rewrite !andb_false_r.
    destruct (Ascii.eqb c "."); apply IH, Hb2.
Qed.

Lemma parsePath_dot (a b : string) :
  has_char "[" a = false ->
  parsePath (a +:+ "." +:+ b) = parsePath a ++ parsePath b.
Proof.
  intros Ha. unfold parsePath.
  destruct (scan_outside_brackets a [] "" Ha) as (parts & cur & Hscan).
  rewrite parse_loop_app. unfold parse_init. rewrite Hscan.
  rewrite append_cons, append_nil_l. simpl.
  assert (E : PState (flush parts cur) "" false false None
              = with_pushed (flush parts cur) (PState [] "" false false None)).
  { unfold with_pushed; simpl. now rewrite app_nil_r. }
  rewrite E.
  rewrite parse_loop_pushed. unfold with_pushed; simpl.
  destruct (parse_loop _ b) as [parts' cur' ib iq qc]; simpl.
  apply flush_app.
Qed.

(** X2.  A dot that follows bracket-free text splits the path: the segments
    are those of the text before the dot followed by those of the text
    after it, whatever that text is. *)
Theorem parsePath_splits_at_a_dot (a b : string) :
  has_char "[" a = false ->
  parsePath (a +:+ "." +:+ b) = parsePath a ++ parsePath b.
Proof. apply parsePath_dot. Qed.

Lemma parsePath_splits_at_a_dot_witness :
  parsePath ("user.name" +:+ "." +:+ "tags[0") = parsePath "user.name" ++ parsePath "tags[0".
Proof. apply parsePath_splits_at_a_dot. reflexivity. Defined.

Lemma parse_loop_stays_in_brackets (s : string) :
  forall st,
    ps_inBrackets st = true -> has_char "]" s = false ->
    ps_inBrackets (parse_loop st s) = true.
Proof.
  induction s as [|c s IH]; intros st Hin Hs; simpl; [exact Hin|].
  apply has_char_cons in Hs as [Hs1 Hs2].
  apply IH; [|exact Hs2].
  destruct st as [parts cur ib iq qc]; simpl in *; subst ib. simpl.
  rewrite Hs1. simpl.
  repeat match goal with
         | |- context [if ?b then _ else _] => destruct b; simpl
         end; reflexivity.
Qed.

(** X3.  The bracket that closes the last segment may be left out: a path
    that ends inside brackets parses like the same path with the bracket
    closed. *)
Theorem parsePath_closes_a_bracket_left_open (a s : string) :
  has_char "]" s = false ->
  parsePath (a +:+ "[" +:+ s) = parsePath (a +:+ "[" +:+ s +:+ "]").
Proof.
  intros Hs. unfold parsePath.
  rewrite !parse_loop_app.
  set (st0 := parse_loop parse_init a).
  assert (Hin : ps_inBrackets (parse_loop (parse_loop st0 "[") s) = true).
  { apply parse_loop_stays_in_brackets; [|exact Hs].
    destruct st0 as [parts cur ib iq qc]; simpl.
    destruct (negb ib); reflexivity. }
  destruct (parse_loop (parse_loop st0 "[") s) as [parts cur ib iq qc].
  simpl in Hin; subst ib. simpl.
  rewrite flush_flush. simpl. now rewrite app_nil_r.
Qed.

Lemma parsePath_closes_a_bracket_left_open_witness :
  parsePath ("users" +:+ "[" +:+ "0") = parsePath ("users" +:+ "[" +:+ "0" +:+ "]").
Proof. apply parsePath_closes_a_bracket_left_open. reflexivity. Defined.

(** ** getValue *)

Lemma getValue_undefined (h : heap) (parts : list string) :
  getValue h VUndef parts = Ret VUndef.
Proof. destruct parts; reflexivity. Qed.

(** X4.  [getValue] never throws, and reading a path in two stages gives
    what reading it in one does; below [null] or [undefined] every path
    reads as [undefined]. *)
Theorem getValue_reads_a_path_in_stages (h : heap) (p q : list string) :
  forall current,
    (exists x, getValue h current p = Ret x
               /\ getValue h current (p ++ q) = getValue h x q)
    /\ (is_nullish current = true -> p <> [] -> getValue h current p = Ret VUndef).
Proof.
  induction p as [|key p IH]; intros current; simpl.
  - split; [now exists current | congruence].
  - destruct (is_nullish current) eqn:Hn.
    + split; [|reflexivity]. exists VUndef. now rewrite getValue_undefined.
    + split; [|discriminate].
      destruct current; try discriminate; simpl; apply IH.
Qed.

(** ** The path a censor function is told *)

Lemma replace_star_from_first (pre : string) :
  forall before post repl,
    has_char "*" pre = false ->
    replace_star_from before (pre +:+ String "*" post) repl
    = (before +:+ pre)
        +:+ expand_replacement repl "*" (before +:+ pre) post +:+ post.
Proof.
  induction pre as [|c pre IH]; intros before post repl Hpre.
  - rewrite append_nil_l, append_nil_r. simpl. reflexivity.
  - apply has_char_cons in Hpre as [Hc Hpre].
    rewrite append_cons. simpl. rewrite Hc.
    rewrite IH by exact Hpre.
    now rewrite !push_char_append.
Qed.

Lemma expand_plain (key tail matched before after : string) :
  has_char "$" key = false ->
  expand_replacement (key +:+ tail) matched before after
  = key +:+ expand_replacement tail matched before after.
Proof.
  induction key as [|c key IH]; intros Hk.
  - now rewrite !append_nil_l.
  - apply has_char_cons in Hk as [Hc Hk].
    rewrite !append_cons. simpl. rewrite Hc. now rewrite IH.
Qed.

(** X5.  For a terminal wildcard the censor function is told the
    configured path with its first star replaced by the key or index, as
    long as the key holds no dollar sign. *)
Theorem replace_star_substitutes_the_key (pre post key : string) :
  has_char "*" pre = false ->
  has_char "$" key = false ->
  replace_star (pre +:+ "*" +:+ post) key = pre +:+ key +:+ post
  /\ star_path (pre +:+ "*" +:+ post) key = VStr (pre +:+ key +:+ post).
Proof.
  intros Hpre Hkey.
  assert (E : replace_star (pre +:+ "*" +:+ post) key = pre +:+ key +:+ post).
  { unfold replace_star. rewrite append_cons, append_nil_l.
    rewrite replace_star_from_first by exact Hpre.
    rewrite append_nil_l.
    rewrite <- (append_nil_r key) at 1.
    rewrite expand_plain by exact Hkey.
    simpl. now rewrite append_nil_r. }
  split; [exact E | unfold star_path; now rewrite E].
Qed.

Lemma replace_star_substitutes_the_key_witness :
  replace_star ("users." +:+ "*" +:+ "") "alice" = "users." +:+ "alice" +:+ "".
Proof. apply replace_star_substitutes_the_key; reflexivity. Defined.

(** X6.  A key is used as the replacement text of [replace], so dollar
    patterns in it are expanded: a key with two dollar signs in a row is
    reported with one, and a dollar sign followed by an ampersand is
    reported as the star itself.  So for the path [*] the censor of an
    object whose only key is two dollar signs is told the path of a single
    dollar sign. *)
Theorem replace_star_expands_dollar_patterns (pre post k1 k2 : string) :
  has_char "*" pre = false ->
  has_char "$" k1 = false ->
  has_char "$" k2 = false ->
  replace_star (pre +:+ "*" +:+ post) (k1 +:+ "$$" +:+ k2)
  = pre +:+ k1 +:+ "$" +:+ k2 +:+ post
  /\ replace_star (pre +:+ "*" +:+ post) (k1 +:+ "$&" +:+ k2)
     = pre +:+ k1 +:+ "*" +:+ k2 +:+ post
  /\ st_calls (redactPaths (VRef 0) [PathStr "*"] tagging_censor
                 (State heap_dollar [])).2
     = [(VNum 1, VStr "$")].
Proof.
  intros Hpre H1 H2.
  assert (Hk2 : forall m b a, expand_replacement k2 m b a = k2).
  { intros m b a. rewrite <- (append_nil_r k2) at 1.
    rewrite expand_plain by exact H2. simpl. now rewrite append_nil_r. }
  split; [|split]; [| |reflexivity].
  all: unfold replace_star; rewrite !append_cons, !append_nil_l;
    rewrite !replace_star_from_first by exact Hpre;
    rewrite !append_nil_l;
    rewrite !expand_plain by exact H1;
    simpl; rewrite !Hk2, ?append_cons, ?append_nil_l;
    now rewrite ?append_assoc, ?append_cons, ?append_nil_l.
Qed.

Lemma replace_star_expands_dollar_patterns_witness :
  replace_star ("a." +:+ "*" +:+ ".b") ("k" +:+ "$$" +:+ "") = "a." +:+ "k" +:+ "$" +:+ "" +:+ ".b".
Proof.
  exact (proj1 (replace_star_expands_dollar_patterns "a." ".b" "k" "" eq_refl eq_refl eq_refl)).
Defined.

(** ** deepClone on any heap *)

Lemma extends_refl (n : nat) (st : state) : extends n st st.
Proof. repeat split; auto. Qed.

Lemma extends_trans (n : nat) (st1 st2 st3 : state) :
  n <= length (st_heap st1) ->
  extends n st1 st2 -> extends n st2 st3 -> extends n st1 st3.
Proof.
  intros Hn (L1 & K1 & C1) (L2 & K2 & C2). repeat split.
  - lia.
  - intros l Hl. now rewrite K2, K1.
  - congruence.
Qed.

Lemma extends_bind {A B} (n : nat) (m : M A) (k : A -> M B) (st : state) :
  n <= length (st_heap st) ->
  extends n st (m st).2 ->
  (forall a st1, m st = (Ret a, st1) -> extends n st1 (k a st1).2) ->
  extends n st (bind m k st).2.
Proof.
  intros Hn Hm Hk. unfold bind.
  destruct (m st) as [[a| |] st1] eqn:E; simpl in *; try exact Hm.
  eapply extends_trans; [exact Hn | exact Hm | now apply Hk].
Qed.

Lemma extends_alloc (n : nat) (o : obj) (st : state) :
  n <= length (st_heap st) -> extends n st (alloc o st).2.
Proof.
  intros Hn. unfold alloc, extends; simpl. repeat split.
  - rewrite length_app. lia.
  - intros l Hl. apply lookup_app_l. lia.
Qed.

Lemma extends_set_prop (n c : nat) (key : string) (x : val) (st : state) :
  n <= c -> extends n st (set_prop (VRef c) key x st).2.
Proof.
  intros Hc. unfold set_prop, update_obj, extends; simpl. repeat split.
  - now rewrite length_insert.
  - intros l Hl. apply list_lookup_insert_ne. lia.
Qed.

Lemma extends_for_each {A} (n : nat) (body : A -> M unit) (xs : list A) :
  (forall x st, n <= length (st_heap st) -> extends n st (body x st).2) ->
  forall st, n <= length (st_heap st) -> extends n st (for_each xs body st).2.
Proof.
  intros Hbody. induction xs as [|x xs IH]; intros st Hn; simpl.
  - apply extends_refl.
  - apply extends_bind; [exact Hn | now apply Hbody |].
    intros [] st1 E. apply IH.
    pose proof (Hbody x st Hn) as (L & _). rewrite E in L. simpl in L. lia.
Qed.

Lemma extends_map_m {A B} (n : nat) (f : A -> M B) (xs : list A) :
  (forall x st, n <= length (st_heap st) -> extends n st (f x st).2) ->
  forall st, n <= length (st_heap st) -> extends n st (map_m f xs st).2.
Proof.
  intros Hf. induction xs as [|x xs IH]; intros st Hn; simpl.
  - apply extends_refl.
  - apply extends_bind; [exact Hn | now apply Hf |].
    intros y st1 E.
    assert (Hn1 : n <= length (st_heap st1)).
    { pose proof (Hf x st Hn) as (L & _). rewrite E in L. simpl in L. lia. }
    apply extends_bind; [exact Hn1 | now apply IH |].
    intros ys st2 _. apply extends_refl.
Qed.

Lemma deepClone_extends (fuel : nat) :
  forall v n st, n <= length (st_heap st) -> extends n st (deepClone fuel v st).2.
Proof.
  induction fuel as [|fuel IH]; intros v n st Hn; [apply extends_refl|].
  destruct v as [| | | | |l]; try apply extends_refl.
  cbn [deepClone].
  apply extends_bind; [exact Hn | apply extends_refl |].
  intros o st1 E. injection E as <- <-.
  destruct (oshape (lookup_obj (st_heap st) l)) as [|elems|t|body].
  - apply extends_bind; [exact Hn | now apply extends_alloc |].
    intros cloned st1 E. unfold alloc in E. injection E as <- <-.
    apply extends_bind.
    + simpl. rewrite length_app. lia.
    + apply extends_for_each.
      * intros key st2 Hn2.
        apply extends_bind; [exact Hn2 | apply extends_refl |].
        intros x st3 E. unfold reading in E. injection E as _ <-.
        apply extends_bind; [exact Hn2 | now apply IH |].
        intros x' st3 _. now apply extends_set_prop.
      * simpl. rewrite length_app. lia.
    + intros [] st2 _. apply extends_refl.
  - apply extends_bind; [exact Hn | apply extends_map_m; [|exact Hn] |].
    + intros x st2 Hn2. now apply IH.
    + intros elems' st2 E. apply extends_alloc.
      pose proof (extends_map_m n (deepClone fuel) elems
                    (fun x st2 Hn2 => IH x n st2 Hn2) st Hn) as (L & _).
      rewrite E in L. simpl in L. lia.
  - now apply extends_alloc.
  - apply extends_refl.
Qed.

(** X7.  [deepClone] only ever allocates: whatever the value, even one
    that contains a cycle, and whatever the outcome, the objects that were
    there before the call are as they were, and no censor is called. *)
Theorem deepClone_only_allocates (fuel : nat) (v : val) (st : state) :
  st_heap st `prefix_of` st_heap (deepClone fuel v st).2
  /\ st_calls (deepClone fuel v st).2 = st_calls st.
Proof.
  destruct (deepClone_extends fuel v (length (st_heap st)) st (le_n _)) as (L & K & C).
  split; [|exact C].
  apply prefix_of_agree; [exact L | exact K].
Qed.

Lemma never_throws_bind {A B} (m : M A) (k : A -> M B) :
  never_throws m ->
  (forall a st st1 e, m st = (Ret a, st1) -> (k a st1).1 <> Throw e) ->
  never_throws (bind m k).
Proof.
  intros Hm Hk st e. unfold bind.
  destruct (m st) as [[a| |] st1] eqn:E; simpl.
  - now apply (Hk a st).
  - specialize (Hm st e0). now rewrite E in Hm.
  - discriminate.
Qed.

Lemma never_throws_for_each {A} (xs : list A) (body : A -> M unit) :
  (forall x, never_throws (body x)) -> never_throws (for_each xs body).
Proof.
  intros Hb. induction xs as [|x xs IH]; simpl.
  - intros st e. discriminate.
  - apply never_throws_bind; [apply Hb | intros; apply IH].
Qed.

Lemma never_throws_map_m {A B} (xs : list A) (f : A -> M B) :
  (forall x, never_throws (f x)) -> never_throws (map_m f xs).
Proof.
  intros Hf. induction xs as [|x xs IH]; simpl.
  - intros st e. discriminate.
  - apply never_throws_bind; [apply Hf | intros y st st1 e _].
    apply never_throws_bind; [exact IH | intros; discriminate].
Qed.

Lemma deepClone_never_throws (fuel : nat) : forall v, never_throws (deepClone fuel v).
Proof.
  induction fuel as [|fuel IH]; intros v; [intros st e; discriminate|].
  destruct v as [| | | | |l]; try (intros st e; discriminate).
  cbn [deepClone].
  apply never_throws_bind; [intros st e; discriminate | intros o st0 st1 e _].
  destruct (oshape o) as [|elems|t|body]; try discriminate.
  - apply never_throws_bind; [intros st e'; discriminate|].
    intros cloned st2 st3 e' E. unfold alloc in E. injection E as <- _.
    apply never_throws_bind; [|intros; discriminate].
    apply never_throws_for_each. intros key.
    apply never_throws_bind; [intros st e''; discriminate|].
    intros x st4 st5 e'' _.
    apply never_throws_bind; [apply IH | intros; discriminate].
  - apply never_throws_bind; [|intros; discriminate].
    apply never_throws_map_m, IH.
Qed.

(** A loop one of whose rounds runs out of fuel, and none of whose rounds
    throws, runs out of fuel. *)
Lemma for_each_diverges {A} (I : state -> Prop) (body : A -> M unit) (x : A) :
  (forall y, never_throws (body y)) ->
  (forall y st, I st -> I (body y st).2) ->
  (forall st, I st -> (body x st).1 = OutOfFuel) ->
  forall xs st, x ∈ xs -> I st -> (for_each xs body st).1 = OutOfFuel.
Proof.
  intros Hnt Hinv Hx. induction xs as [|y xs IH]; intros st Hin HI.
  - now apply elem_of_nil in Hin.
  - simpl. unfold bind.
    apply elem_of_cons in Hin as [<-|Hin].
    + pose proof (Hx st HI) as E. destruct (body x st) as [o st1]; simpl in E; now subst o.
    + pose proof (Hinv y st HI) as HI1. pose proof (Hnt y st) as Hn.
      destruct (body y st) as [[[]|e|] st1]; simpl in *.
      * now apply IH.
      * now destruct (Hn e).
      * reflexivity.
Qed.

Lemma map_m_diverges {A B} (I : state -> Prop) (f : A -> M B) (x : A) :
  (forall y, never_throws (f y)) ->
  (forall y st, I st -> I (f y st).2) ->
  (forall st, I st -> (f x st).1 = OutOfFuel) ->
  forall xs st, x ∈ xs -> I st -> (map_m f xs st).1 = OutOfFuel.
Proof.
  intros Hnt Hinv Hx. induction xs as [|y xs IH]; intros st Hin HI.
  - now apply elem_of_nil in Hin.
  - simpl. unfold bind at 1.
    apply elem_of_cons in Hin as [<-|Hin].
    + pose proof (Hx st HI) as E. destruct (f x st) as [o st1]; simpl in E; now subst o.
    + pose proof (Hinv y st HI) as HI1. pose proof (Hnt y st) as Hn.
      destruct (f y st) as [[z|e|] st1]; simpl in *.
      * unfold bind. pose proof (IH st1 Hin HI1) as E.
        destruct (map_m f xs st1) as [o st2]; simpl in E; now subst o.
      * now destruct (Hn e).
      * reflexivity.
Qed.

Lemma prefix_extends (h : heap) (st st' : state) :
  h `prefix_of` st_heap st -> extends (length h) st st' -> h `prefix_of` st_heap st'.
Proof.
  intros Hp (L & K & _).
  pose proof (prefix_length _ _ Hp) as Hl.
  apply prefix_of_agree; [lia|].
  intros l Hlt. rewrite K by exact Hlt. now apply prefix_lookup_lt.
Qed.

Lemma deepClone_diverges (h : heap) (C : loc -> Prop) :
  cyclic h C ->
  forall fuel l st,
    C l -> h `prefix_of` st_heap st -> (deepClone fuel (VRef l) st).1 = OutOfFuel.
Proof.
  intros Hcyc. induction fuel as [|fuel IH]; intros l st Hl Hp; [reflexivity|].
  destruct (Hcyc l Hl) as (o & l' & Ho & Hin & Hl').
  assert (Hlook : forall st', h `prefix_of` st_heap st' -> lookup_obj (st_heap st') l = o).
  { intros st' Hp'. apply lookup_obj_Some.
    rewrite (prefix_lookup_lt _ _ _ Hp'); [exact Ho|].
    now apply lookup_lt_Some in Ho. }
  assert (Hkeep : forall v st', h `prefix_of` st_heap st' ->
                    h `prefix_of` st_heap (deepClone fuel v st').2).
  { intros v st' Hp'. apply (prefix_extends h st'); [exact Hp'|].
    apply deepClone_extends. now apply prefix_length. }
  cbn [deepClone]. unfold bind at 1, reading at 1. cbn [fst snd].
  rewrite (Hlook st Hp).
  unfold cloned_children in Hin.
  destruct (oshape o) as [|elems|t|body].
  - apply list_elem_of_fmap in Hin as (key & Hkey & Hin).
    unfold bind at 1, alloc at 1. cbn [fst snd].
    set (c := length (st_heap st)).
    set (st1 := State (st_heap st ++ [Obj SPlain []]) (st_calls st)).
    unfold bind at 1.
    assert (E : (for_each (map fst (oprops o)) (fun key0 =>
                   let* x := reading (fun h0 => get_prop h0 (VRef l) key0) in
                   let* x' := deepClone fuel x in
                   set_prop (VRef c) key0 x') st1).1 = OutOfFuel).
    { apply (for_each_diverges (fun s => h `prefix_of` st_heap s) _ key);
        [| | |exact Hin|].
      - intros y. apply never_throws_bind; [intros s e; discriminate|].
        intros x s s1 e _.
        apply never_throws_bind; [apply deepClone_never_throws | intros; discriminate].
      - intros y s Hs. unfold bind at 1, reading at 1. cbn [fst snd].
        unfold bind. cbn [get_prop].
        pose proof (Hkeep (get_own (lookup_obj (st_heap s) l) y) s Hs) as Hk.
        destruct (deepClone fuel _ s) as [[x'| |] s1]; simpl in *; try exact Hk.
        apply prefix_insert_above; [exact Hk|].
        unfold c. now apply prefix_length.
      - intros s Hs. unfold bind at 1, reading at 1. cbn [fst snd].
        unfold bind. cbn [get_prop]. rewrite (Hlook s Hs), <- Hkey.
        pose proof (IH l' s Hl' Hs) as E.
        destruct (deepClone fuel (VRef l') s) as [r s1]; simpl in E; now subst r.
      - simpl. now apply prefix_app_r. }
    destruct (for_each _ _ st1) as [r s1]; simpl in E; now subst r.
  - unfold bind.
    pose proof (map_m_diverges (fun s => h `prefix_of` st_heap s) (deepClone fuel)
                  (VRef l') (deepClone_never_throws fuel)
                  (fun y s Hs => Hkeep y s Hs) (fun s Hs => IH l' s Hl' Hs)
                  elems st Hin Hp) as E.
    destruct (map_m _ _ st) as [r s1]; simpl in E; now subst r.
  - now apply elem_of_nil in Hin.
  - now apply elem_of_nil in Hin.
Qed.

(** X8.  On a value that contains a cycle, [deepClone] recurses without
    end, and so does the [redact] that begins by cloning it: whatever the
    fuel, neither returns nor throws a [TypeError]. *)
Theorem cyclic_input_is_never_cloned (h : heap) (C : loc -> Prop) (l : loc) :
  cyclic h C -> C l ->
  forall fuel calls,
    (deepClone fuel (VRef l) (State h calls)).1 = OutOfFuel
    /\ forall cfg, (redact cfg fuel (VRef l) (State h calls)).1 = OutOfFuel.
Proof.
  intros Hcyc Hl fuel calls.
  pose proof (deepClone_diverges h C Hcyc fuel l (State h calls) Hl (reflexivity _)) as E.
  split; [exact E|]. intros cfg.
  destruct (Hcyc l Hl) as (o & l' & Ho & Hin & _).
  assert (Hty : typeof h (VRef l) = TyObject).
  { simpl. rewrite (lookup_obj_Some _ _ _ Ho).
    unfold cloned_children in Hin.
    destruct (oshape o); try reflexivity; now apply elem_of_nil in Hin. }
  unfold redact. unfold bind at 1, reading at 1. cbn [fst snd st_heap].
  rewrite Hty.
  rewrite (bool_decide_eq_false_2 (VRef l = VNull)) by discriminate.
  rewrite (bool_decide_eq_true_2 (TyObject = TyObject)) by reflexivity.
  rewrite andb_false_r. unfold bind at 1, ret at 1. cbn [fst snd].
  unfold bind at 1.
  destruct (deepClone fuel (VRef l) (State h calls)) as [r s1]; simpl in E; now subst r.
Qed.

Lemma cyclic_input_is_never_cloned_witness :
  (deepClone 5 (VRef 0) (State heap_self [])).1 = OutOfFuel.
Proof.
  refine (proj1 (cyclic_input_is_never_cloned heap_self (fun l => l = 0) 0 _ eq_refl 5 [])).
  intros l ->. exists (Obj SPlain [("name", VStr "n"); ("self", VRef 0)]), 0.
  split; [reflexivity|]. split; [|reflexivity].
  apply list_elem_of_further, list_elem_of_here.
Defined.

(** ** Wildcards that meet no container *)

Lemma follow_Some_getValue (h : heap) (ps : list string) :
  forall current x, follow h current ps = Ret (Some x) -> getValue h current ps = Ret x.
Proof.
  induction ps as [|part rest IH]; intros current x; simpl.
  - now intros [= ->].
  - destruct current; simpl; try discriminate; apply IH.
Qed.

Lemma is_array_is_object (h : heap) (v : val) :
  is_object h v = false -> is_array h v = false.
Proof.
  destruct v as [| | | | |l]; try reflexivity.
  unfold is_object, is_array, typeof.
  destruct (oshape (lookup_obj h l)); try reflexivity.
  now rewrite bool_decide_eq_true_2.
Qed.

(** X9.  A wildcard that meets something other than an array or an object
    (a missing property, [null], a primitive, a function) redacts nothing,
    does not throw, and does not call the censor, whatever follows it in the
    path. *)
Theorem wildcard_over_a_non_container_is_skipped (h : heap)
    (calls : list (val * val)) (root x : val) (pre post : list string)
    (path : string) (c : censor_t) :
  includes_wildcard pre = false ->
  getValue h root pre = Ret x ->
  is_object h x = false ->
  redactWildcardPath root (pre ++ "*" :: post) c path (State h calls)
  = (Ret tt, State h calls).
Proof.
  intros Hpre Hget Hobj.
  pose proof (is_array_is_object _ _ Hobj) as Harr.
  unfold redactWildcardPath. rewrite (index_of_wildcard_app _ _ Hpre).
  rewrite length_app. cbn [length].
  destruct (length pre =? length pre + S (length post) - 1) eqn:Hterm.
  - (* the star is the last segment *)
    apply Nat.eqb_eq in Hterm.
    assert (post = []) as -> by (destruct post; [reflexivity | simpl in Hterm; lia]).
    rewrite removelast_last.
    unfold bind at 1, reading at 1. cbn [st_heap].
    destruct (follow_total h pre root) as [r Hr]. rewrite Hr.
    destruct r as [current|]; [|reflexivity].
    rewrite (follow_Some_getValue _ _ _ _ Hr) in Hget. injection Hget as ->.
    unfold bind at 1, reading at 1. cbn [st_heap]. rewrite Harr.
    unfold bind at 1, reading at 1. cbn [st_heap]. now rewrite Hobj.
  - unfold redactIntermediateWildcard.
    assert (Hbefore : beforeWildcard (pre ++ "*" :: post) (length pre) = pre).
    { unfold beforeWildcard. now rewrite take_app_length. }
    rewrite Hbefore.
    destruct (length pre =? 0) eqn:Hlen.
    + apply Nat.eqb_eq in Hlen. apply nil_length_inv in Hlen. subst pre.
      simpl in Hget. injection Hget as ->.
      cbn [traverse]. rewrite Hbefore. simpl.
      unfold bind at 1, reading at 1. cbn [st_heap]. rewrite Harr.
    unfold bind at 1, reading at 1. cbn [st_heap]. now rewrite Hobj.
    + unfold bind at 1, reading at 1. cbn [st_heap].
      destruct (follow_total h pre root) as [r Hr]. rewrite Hr.
      destruct r as [current|]; [|reflexivity].
      rewrite (follow_Some_getValue _ _ _ _ Hr) in Hget. injection Hget as ->.
      destruct (is_nullish x); [reflexivity|].
      cbn [traverse]. rewrite Hbefore, Nat.eqb_refl.
      unfold bind at 1, reading at 1. cbn [st_heap]. rewrite Harr.
    unfold bind at 1, reading at 1. cbn [st_heap]. now rewrite Hobj.
Qed.

Lemma wildcard_over_a_non_container_is_skipped_witness :
  redactWildcardPath (VRef 0) (["secret"] ++ "*" :: ["x"]) tagging_censor "secret.*.x"
    (State heap_secret [])
  = (Ret tt, State heap_secret []).
Proof.
  apply (wildcard_over_a_non_container_is_skipped heap_secret [] (VRef 0) (VStr "hidden"));
    reflexivity.
Defined.

(** ** Entries that parse to no segment *)

(** X10.  A path entry that parses to no segment at all (the empty string,
    a lone dot, a number, a boolean) is not skipped: [setValue] then uses
    [parts[-1]], that is [undefined], as the key, so the property named
    [undefined] of the root is redacted if there is one, and a censor
    function is called with the whole root as the value. *)
Theorem empty_path_redacts_the_key_undefined (h : heap) (calls : list (val * val))
    (l : loc) (c : censor_t) (entry : path_entry) :
  parse_entry entry = Ret [] ->
  redact_one (VRef l) c entry (State h calls)
  = (Ret tt,
     State (if has_own (lookup_obj h l) "undefined"
            then <[l := set_own (lookup_obj h l) "undefined"
                          (censor_value c (VRef l) (entry_val entry))]> h
            else h)
           (calls ++ censor_calls c (VRef l) (entry_val entry))).
Proof.
  intros Hparse. unfold redact_one.
  unfold bind at 1, reading at 1. rewrite Hparse. cbn [includes_wildcard existsb].
  unfold bind at 1.
  rewrite (actual_censor_run c _ (entry_val entry) (VRef l) h calls) by reflexivity.
  destruct (has_own (lookup_obj h l) "undefined") eqn:Hkey;
    unfold setValue, bind, reading, ret; cbn;
    rewrite bool_decide_eq_false_2 by discriminate; cbn; rewrite Hkey; reflexivity.
Qed.

Lemma empty_path_redacts_the_key_undefined_witness :
  redact_one (VRef 0) (CensorVal (VStr "[REDACTED]")) (PathNum 123)
    (State heap_undefined_key [])
  = (Ret tt, State [Obj SPlain [("undefined", VStr "[REDACTED]"); ("a", VNum 2)]] []).
Proof.
  exact (empty_path_redacts_the_key_undefined heap_undefined_key [] 0
           (CensorVal (VStr "[REDACTED]")) (PathNum 123) eq_refl).
Defined.

(** ** setValue on a path that resolves *)

Lemma path_resolves_cons (h : heap) (root : val) (key : string) (rest : list string) :
  path_resolves h root (key :: rest) = true ->
  exists l, root = VRef l
            /\ is_object h root = true
            /\ has_own (lookup_obj h l) key = true
            /\ path_resolves h (get_own (lookup_obj h l) key) rest = true.
Proof.
  cbn [path_resolves]. destruct root as [| | | | |l]; try discriminate.
  intros H. apply andb_true_iff in H as [H H3]. apply andb_true_iff in H as [H1 H2].
  now exists l.
Qed.

Lemma has_own_allocated (h : heap) (l : loc) (key : string) :
  has_own (lookup_obj h l) key = true -> l < length h.
Proof.
  intros H. destruct (h !! l) as [o|] eqn:E; [now apply lookup_lt_Some in E|].
  unfold lookup_obj in H. rewrite E in H. discriminate.
Qed.

Lemma lookup_obj_insert_ne (h : heap) (l l' : loc) (o : obj) :
  l <> l' -> lookup_obj (<[l' := o]> h) l = lookup_obj h l.
Proof.
  intros Hne. unfold lookup_obj. now rewrite list_lookup_insert_ne by auto.
Qed.

(** On a path that resolves, the first loop of [setValue] ends at the
    object that holds the last segment. *)
Lemma descend_resolved (h : heap) (key : string) (pre : list string) :
  forall root,
    path_resolves h root (pre ++ [key]) = true ->
    exists lp,
      descend h root pre = Ret (Some (VRef lp))
      /\ getValue h root pre = Ret (VRef lp)
      /\ last (trail h root (pre ++ [key])) = Some lp
      /\ has_own (lookup_obj h lp) key = true.
Proof.
  induction pre as [|key0 rest IH]; intros root Hres.
  - apply path_resolves_cons in Hres as (l & -> & _ & Hk & _).
    now exists l.
  - rewrite <- app_comm_cons in Hres.
    apply path_resolves_cons in Hres as (l & -> & _ & Hk & Hrest).
    destruct (IH _ Hrest) as (lp & Hd & Hg & Hl & Hkey).
    exists lp. repeat split; [| |
      | exact Hkey].
    + cbn [descend has_prop get_prop]. rewrite Hk.
      destruct (rest ++ [key]) as [|k2 r2] eqn:E; [now destruct rest|].
      apply path_resolves_cons in Hrest as (l2 & E2 & Ho & _).
      now rewrite Ho.
    + cbn [getValue is_nullish get_prop]. exact Hg.
    + rewrite <- app_comm_cons. cbn [trail].
      rewrite last_cons, Hl. reflexivity.
Qed.

Lemma setValue_resolved (h : heap) (calls : list (val * val))
    (root : val) (pre : list string) (key : string) (value : val) :
  path_resolves h root (pre ++ [key]) = true ->
  key <> "*" ->
  exists lp,
    getValue h root pre = Ret (VRef lp)
    /\ setValue root (pre ++ [key]) value (State h calls)
       = (Ret true, State (<[lp := set_own (lookup_obj h lp) key value]> h) calls).
Proof.
  intros Hres Hstar.
  destruct (descend_resolved h key pre root Hres) as (lp & Hd & Hg & _ & Hk).
  exists lp. split; [exact Hg|].
  unfold setValue. rewrite removelast_last.
  unfold bind at 1, reading at 1. cbn [st_heap]. rewrite Hd.
  unfold last_key. rewrite last_snoc.
  change (default "undefined" (Some key)) with key.
  rewrite bool_decide_eq_false_2 by (intros [= ->]; now apply Hstar).
  unfold bind, reading, ret. cbn [st_heap has_prop]. rewrite Hk.
  reflexivity.
Qed.

(** X11.  On a path that resolves and does not end in a star, [setValue]
    returns [true] and overwrites exactly one slot: the last segment, in the
    object the segments before it lead to.  Nothing else in the heap
    changes and no censor is called. *)
Theorem setValue_overwrites_one_slot (h : heap) (calls : list (val * val))
    (root : val) (pre : list string) (key : string) (value : val) :
  path_resolves h root (pre ++ [key]) = true ->
  key <> "*" ->
  exists lp,
    getValue h root pre = Ret (VRef lp)
    /\ setValue root (pre ++ [key]) value (State h calls)
       = (Ret true, State (<[lp := set_own (lookup_obj h lp) key value]> h) calls).
Proof. apply setValue_resolved. Qed.

Lemma setValue_overwrites_one_slot_witness :
  exists lp,
    getValue heap_a_bc (VRef 0) ["a"] = Ret (VRef lp)
    /\ setValue (VRef 0) (["a"] ++ ["b"]) (VStr "[REDACTED]") (State heap_a_bc [])
       = (Ret true,
          State (<[lp := set_own (lookup_obj heap_a_bc lp) "b" (VStr "[REDACTED]")]> heap_a_bc)
                []).
Proof.
  apply setValue_overwrites_one_slot; [reflexivity | discriminate].
Defined.

Lemma getValue_after_write (h : heap) (key : string) (value : val) (lp : loc)
    (pre : list string) :
  forall root,
    path_resolves h root (pre ++ [key]) = true ->
    NoDup (trail h root (pre ++ [key])) ->
    getValue h root pre = Ret (VRef lp) ->
    getValue (<[lp := set_own (lookup_obj h lp) key value]> h) root (pre ++ [key])
    = Ret value.
Proof.
  induction pre as [|key0 rest IH]; intros root Hres Hnd Hg.
  - simpl in Hg. injection Hg as ->.
    apply path_resolves_cons in Hres as (l & [= <-] & _ & Hk & _).
    cbn [app getValue is_nullish get_prop].
    rewrite lookup_obj_insert by (now apply has_own_allocated in Hk).
    now rewrite get_set_own_same.
  - rewrite <- app_comm_cons in Hres, Hnd |- *.
    apply path_resolves_cons in Hres as (l & -> & _ & Hk & Hrest).
    cbn [trail] in Hnd. apply NoDup_cons in Hnd as [Hfresh Hnd].
    cbn [getValue is_nullish get_prop] in Hg |- *.
    destruct (descend_resolved h key rest _ Hrest) as (lp' & _ & Hg' & Hl & _).
    rewrite Hg in Hg'. injection Hg' as <-.
    rewrite lookup_obj_insert_ne.
    + now apply IH.
    + intros ->. apply Hfresh. now apply last_Some_elem_of.
Qed.

(** X12.  Writing and then reading back: when the objects passed on the
    way are pairwise distinct, as they are in any structure without a
    cycle, [getValue] on the same path returns the value [setValue] has just
    written. *)
Theorem getValue_reads_back_what_setValue_wrote (h : heap) (calls : list (val * val))
    (root : val) (pre : list string) (key : string) (value : val) :
  path_resolves h root (pre ++ [key]) = true ->
  key <> "*" ->
  NoDup (trail h root (pre ++ [key])) ->
  exists h',
    setValue root (pre ++ [key]) value (State h calls) = (Ret true, State h' calls)
    /\ getValue h' root (pre ++ [key]) = Ret value.
Proof.
  intros Hres Hstar Hnd.
  destruct (setValue_resolved h calls root pre key value Hres Hstar)
    as (lp & Hg & Hset).
  eexists. split; [exact Hset|].
  now apply getValue_after_write.
Qed.

Lemma getValue_reads_back_what_setValue_wrote_witness :
  exists h',
    setValue (VRef 0) (["a"] ++ ["b"]) (VStr "[REDACTED]") (State heap_a_bc [])
    = (Ret true, State h' [])
    /\ getValue h' (VRef 0) (["a"] ++ ["b"]) = Ret (VStr "[REDACTED]").
Proof.
  apply getValue_reads_back_what_setValue_wrote; [reflexivity | discriminate |].
  change (NoDup [0; 1]).
  apply NoDup_cons. split; [|apply NoDup_singleton].
  rewrite list_elem_of_singleton. discriminate.
Defined.

(** ** setValue on a path that ends in a star *)

Lemma descend_getValue (h : heap) (pre : list string) :
  forall root x,
    path_resolves h root pre = true ->
    getValue h root pre = Ret x ->
    is_object h x = true ->
    descend h root pre = Ret (Some x).
Proof.
  induction pre as [|key rest IH]; intros root x Hres Hg Hobj.
  - simpl in Hg. now injection Hg as ->.
  - apply path_resolves_cons in Hres as (l & -> & _ & Hk & Hrest).
    cbn [getValue is_nullish get_prop] in Hg.
    cbn [descend has_prop get_prop]. rewrite Hk.
    assert (Hnext : is_object h (get_own (lookup_obj h l) key) = true).
    { destruct rest as [|k2 r2].
      - simpl in Hg. now injection Hg as ->.
      - now apply path_resolves_cons in Hrest as (l2 & E2 & Ho & _). }
    rewrite Hnext. now apply IH.
Qed.

Lemma for_each_ext {A} (body body' : A -> M unit) (xs : list A) (st : state) :
  (forall x st, body x st = body' x st) ->
  for_each xs body st = for_each xs body' st.
Proof.
  intros Hb. revert st. induction xs as [|x xs IH]; intros st; simpl; [reflexivity|].
  unfold bind. rewrite Hb. destruct (body' x st) as [[[]| |] st1]; auto.
Qed.

Lemma join_of_nils {A B} (xs : list A) : mjoin (map (fun _ => @nil B) xs) = [].
Proof. induction xs as [|x xs IH]; [reflexivity | exact IH]. Qed.

Lemma censored_constant (value : val) (path : string) (o : obj) :
  censored (CensorVal value) path o = blanked value o
  /\ censored_calls (CensorVal value) path o = [].
Proof.
  unfold censored, blanked, censored_calls, censor_elem, censor_prop.
  cbn [censor_value censor_calls].
  destruct (oshape o) as [|es|t|body]; split; try reflexivity;
    try apply join_of_nils.
  - now rewrite (imap_const (fun _ : val => value)).
  - rewrite (imap_const (fun _ : val => @nil (val * val))). apply join_of_nils.
Qed.

(** X13.  A path that ends in a star, handed to [setValue], overwrites
    every element of the array, or every own property of the object, the
    segments before the star lead to, with the same value. *)
Theorem setValue_star_overwrites_every_child (h : heap) (calls : list (val * val))
    (root : val) (pre : list string) (value : val) (l : loc) (o : obj) :
  path_resolves h root pre = true ->
  getValue h root pre = Ret (VRef l) ->
  is_object h (VRef l) = true ->
  h !! l = Some o ->
  NoDup (map fst (oprops o)) ->
  setValue root (pre ++ ["*"]) value (State h calls)
  = (Ret true, State (<[l := blanked value o]> h) calls).
Proof.
  intros Hres Hg Hobj Hl Hnd.
  destruct (censored_constant value "" o) as [<- Hcalls].
  unfold setValue. rewrite removelast_last.
  unfold bind at 1, reading at 1. cbn [st_heap].
  rewrite (descend_getValue _ _ _ _ Hres Hg Hobj).
  rewrite last_snoc, bool_decide_eq_true_2 by reflexivity.
  unfold bind at 1. unfold bind at 1, reading at 1. cbn [st_heap].
  assert (Hloop :
    forall keys body,
      (forall (k : string) st, body k st = prop_body (CensorVal value) "" l k st) ->
      keys = map fst (oprops o) -> (forall es, oshape o <> SArr es) ->
      for_each keys body (State h calls)
      = (Ret tt, State (<[l := censored (CensorVal value) "" o]> h) calls)).
  { intros keys body Hb -> Hsh.
    rewrite (for_each_ext _ _ _ _ Hb).
    destruct o as [sh props]. cbn [oshape oprops] in *.
    rewrite (prop_loop (CensorVal value) "" l props [] sh h calls Hl Hsh Hnd).
    unfold censored. cbn [oshape oprops app censor_calls].
    rewrite join_of_nils, app_nil_r.
    destruct sh; try reflexivity. now destruct (Hsh elems). }
  unfold is_array. rewrite (lookup_obj_Some _ _ _ Hl).
  destruct (oshape o) as [|es|t|body] eqn:Hsh.
  - unfold bind at 1, reading at 1. cbn [st_heap]. rewrite Hobj.
    unfold bind at 1, reading at 1. cbn [st_heap].
    rewrite (Hloop (enum_keys h (VRef l)) _); [reflexivity | reflexivity | | discriminate].
    unfold enum_keys. now rewrite (lookup_obj_Some _ _ _ Hl), Hsh.
  - unfold bind at 1, reading at 1. cbn [st_heap].
    unfold arr_length. rewrite (lookup_obj_Some _ _ _ Hl), Hsh.
    rewrite (for_each_ext _ (elem_body (CensorVal value) "" l)) by reflexivity.
    destruct o as [sh props]. cbn [oshape oprops] in *. subst sh.
    pose proof (elem_loop (CensorVal value) "" l es [] props h calls Hl) as E.
    cbn [length] in E. rewrite E.
    unfold censored. cbn [oshape oprops app length censor_calls].
    rewrite (imap_const (fun _ : val => @nil (val * val))), join_of_nils, app_nil_r.
    reflexivity.
  - unfold bind at 1, reading at 1. cbn [st_heap]. rewrite Hobj.
    unfold bind at 1, reading at 1. cbn [st_heap].
    rewrite (Hloop (enum_keys h (VRef l)) _); [reflexivity | reflexivity | | discriminate].
    unfold enum_keys. now rewrite (lookup_obj_Some _ _ _ Hl), Hsh.
  - exfalso. revert Hobj. unfold is_object, typeof.
    rewrite (lookup_obj_Some _ _ _ Hl), Hsh. simpl. discriminate.
Qed.

Lemma setValue_star_overwrites_every_child_witness :
  setValue (VRef 0) (["a"] ++ ["*"]) (VStr "[REDACTED]") (State heap_a_bc [])
  = (Ret true,
     State (<[1 := blanked (VStr "[REDACTED]")
                     (Obj SPlain [("b", VNum 1); ("c", VNum 2)])]> heap_a_bc) []).
Proof.
  apply setValue_star_overwrites_every_child; try reflexivity.
  cbn [oprops map fst].
  apply NoDup_cons. split; [|apply NoDup_singleton].
  rewrite list_elem_of_singleton. discriminate.
Defined.

(** ** Redaction keeps the layout of the heap *)


Lemma steady_throw {A} L (e : error) : steady L (@throw A e).
Proof. intros st H. exact H. Qed.






Lemma upsert_keys (key : string) (x : val) (props : list (string * val)) :
  is_Some (assoc key props) -> map fst (upsert key x props) = map fst props.
Proof.
  induction props as [|[k y] props IH]; simpl; intros H.
  - now destruct H.
  - destruct (String.eqb k key); [reflexivity|]. simpl. now rewrite IH.
Qed.

Lemma blank_insert (es : list val) (i : nat) (x : val) :
  map (fun _ => VUndef) (<[i := x]> es) = map (fun _ : val => VUndef) es.
Proof.
  revert i; induction es as [|y es IH]; intros [|i]; simpl; try reflexivity.
  now rewrite IH.
Qed.

Lemma set_own_layout (o : obj) (key : string) (x : val) :
  has_own o key = true -> layout (set_own o key x) = layout o.
Proof.
  unfold has_own, set_own, layout.
  destruct (arr_slot o key) as [[elems i]|] eqn:E.
  - intros _. unfold arr_slot in E.
    destruct (oshape o) as [|es|t|body]; try discriminate.
    destruct (index_of_key key); [|discriminate].
    destruct (decide _); [|discriminate]. injection E as <- <-.
    cbn [oshape oprops]. now rewrite blank_insert.
  - intros H. apply bool_decide_eq_true in H. cbn [oshape oprops].
    now rewrite upsert_keys.
Qed.

Lemma arr_slot_layout (o o' : obj) (key : string) :
  layout o = layout o' ->
  is_Some (arr_slot o key) <-> is_Some (arr_slot o' key).
Proof.
  unfold layout, arr_slot. intros [= Hs _].
  destruct (oshape o) as [|es|t|body], (oshape o') as [|es'|t'|body'];
    try discriminate; try reflexivity.
  injection Hs as Hs. apply (f_equal length) in Hs. rewrite !length_map in Hs.
  destruct (index_of_key key) as [i|]; [|reflexivity].
  rewrite Hs. destruct (decide (i < length es')); split; intros [? ?]; eauto; discriminate.
Qed.

Lemma assoc_keys (key : string) (props props' : list (string * val)) :
  map fst props = map fst props' ->
  is_Some (assoc key props) <-> is_Some (assoc key props').
Proof.
  revert props'; induction props as [|[k y] props IH]; intros [|[k' y'] props'];
    simpl; try discriminate; [reflexivity|].
  intros [= -> Hk]. destruct (String.eqb k' key); [split; eauto | now apply IH].
Qed.

Lemma has_own_layout (o o' : obj) (key : string) :
  layout o = layout o' -> has_own o key = has_own o' key.
Proof.
  intros H. unfold has_own.
  pose proof (arr_slot_layout o o' key H) as Hs.
  destruct (arr_slot o key) as [p|], (arr_slot o' key) as [p'|]; try reflexivity.
  - destruct Hs as [Hs _]. destruct Hs as [? ?]; [eauto | discriminate].
  - destruct Hs as [_ Hs]. destruct Hs as [? ?]; [eauto | discriminate].
  - apply bool_decide_ext, assoc_keys.
    unfold layout in H. now injection H.
Qed.

Lemma lookup_obj_layout (h h' : heap) (l : loc) :
  map layout h = map layout h' ->
  layout (lookup_obj h l) = layout (lookup_obj h' l).
Proof.
  intros H. unfold lookup_obj.
  assert (E : (layout <$> h) !! l = (layout <$> h') !! l).
  { change ((map layout h) !! l = (map layout h') !! l). now rewrite H. }
  rewrite !list_lookup_fmap in E.
  destruct (h !! l), (h' !! l); simpl in *; congruence.
Qed.

Lemma steady_set_prop L (h : heap) (l : loc) (key : string) (x : val) :
  map layout h = L ->
  has_own (lookup_obj h l) key = true ->
  steady L (set_prop (VRef l) key x).
Proof.
  intros Hh Hk st H. unfold set_prop, update_obj. cbn [snd st_heap].
  rewrite list_fmap_insert.
  rewrite set_own_layout.
  - rewrite <- H. apply list_insert_id'. intros Hl.
    rewrite list_lookup_fmap. unfold lookup_obj.
    rewrite length_map in Hl. apply lookup_lt_is_Some in Hl as [o ->]. reflexivity.
  - rewrite <- Hk. apply has_own_layout, lookup_obj_layout. congruence.
Qed.









(** ** A structure has no cycle *)








(** ** A plain path, from end to end *)




(** ** An intermediate wildcard, child by child *)

Lemma for_each_map {A B} (g : A -> B) (body : B -> M unit) (xs : list A) (st : state) :
  for_each (map g xs) body st = for_each xs (fun x => body (g x)) st.
Proof.
  revert st. induction xs as [|x xs IH]; intros st; simpl; [reflexivity|].
  unfold bind. destruct (body (g x) st) as [[[]| |] st1]; auto.
Qed.

Lemma bind_ext {A B} (m : M A) (k k' : A -> M B) (st : state) :
  (forall a st1, k a st1 = k' a st1) -> bind m k st = bind m k' st.
Proof. intros Hk. unfold bind. destruct (m st) as [[a| |] st1]; auto. Qed.

Lemma intermediate_wildcard_unrolled (h : heap) (calls : list (val * val))
    (root current : val) (pre post : list string) (path : string) (c : censor_t) :
  includes_wildcard pre = false -> post <> [] ->
  getValue h root pre = Ret current -> is_nullish current = false ->
  redactWildcardPath root (pre ++ "*" :: post) c path (State h calls)
  = for_each (branch_keys h current) (redact_branch c pre post current) (State h calls).
Proof.
  intros Hpre Hpost Hget Hnn.
  unfold redactWildcardPath. rewrite (index_of_wildcard_app _ _ Hpre).
  assert (Hne : (length pre =? length (pre ++ "*" :: post) - 1) = false).
  { apply Nat.eqb_neq. rewrite length_app. simpl.
    destruct post; [contradiction | simpl; lia]. }
  rewrite Hne. unfold redactIntermediateWildcard.
  assert (Hbefore : beforeWildcard (pre ++ "*" :: post) (length pre) = pre).
  { unfold beforeWildcard. now rewrite take_app_length. }
  assert (Hafter : afterWildcard (pre ++ "*" :: post) (length pre) = post).
  { unfold afterWildcard.
    change (pre ++ "*" :: post) with (pre ++ ["*"] ++ post).
    rewrite app_assoc.
    replace (S (length pre)) with (length (pre ++ ["*"]))
      by (rewrite length_app; simpl; lia).
    now rewrite drop_app_length. }
  assert (Hleaf : forall key child st,
    traverse c (pre ++ "*" :: post) (length pre) 1 child (pre ++ [key]) st
    = (let* x := actual_censor c (fun h => getValue h child post)
                   (branch_path pre post key) in
       let* _ := setValue child post x in
       ret tt) st).
  { intros key child st. cbn [traverse]. rewrite Hbefore, Hafter.
    rewrite (proj2 (Nat.eqb_neq _ _)) by (rewrite length_app; simpl; lia).
    rewrite (proj2 (Nat.ltb_ge _ _)) by (rewrite length_app; simpl; lia).
    reflexivity. }
  assert (Hentry :
    traverse c (pre ++ "*" :: post) (length pre) 2 current pre (State h calls)
    = for_each (branch_keys h current) (redact_branch c pre post current) (State h calls)).
  { rewrite traverse_at_wildcard by now rewrite Hbefore.
    unfold bind at 1, reading at 1. cbn [st_heap]. unfold branch_keys.
    destruct (is_array h current) eqn:Harr.
    - unfold bind at 1, reading at 1. cbn [st_heap].
      rewrite for_each_map. apply for_each_ext.
      intros i st. unfold redact_branch, arr_get.
      apply bind_ext. intros child st1. apply Hleaf.
    - unfold bind at 1, reading at 1. cbn [st_heap].
      destruct (is_object h current) eqn:Hobj; [|reflexivity].
      unfold bind at 1, reading at 1. cbn [st_heap].
      apply for_each_ext.
      intros key st. unfold redact_branch.
      apply bind_ext. intros child st1. apply Hleaf. }
  rewrite Hbefore.
  destruct (length pre =? 0) eqn:Hz.
  - apply Nat.eqb_eq in Hz. destruct pre; [|discriminate].
    simpl in Hget. injection Hget as ->. apply Hentry.
  - unfold bind at 1, reading at 1. cbn [st_heap].
    rewrite (follow_getValue _ _ _ _ Hget Hnn), Hnn. apply Hentry.
Qed.

(** X16.  An intermediate wildcard is a loop over the children of the
    container before the star: for each index of an array, or each own key
    of an object, the segments after the star are handed to [setValue] with
    that child as the root, and the censor is given the child's path
    joined with dots. *)
Theorem intermediate_wildcard_visits_every_child (h : heap) (calls : list (val * val))
    (root current : val) (pre post : list string) (path : string) (c : censor_t) :
  includes_wildcard pre = false -> post <> [] ->
  getValue h root pre = Ret current -> is_nullish current = false ->
  redactWildcardPath root (pre ++ "*" :: post) c path (State h calls)
  = for_each (branch_keys h current) (redact_branch c pre post current) (State h calls).
Proof. apply intermediate_wildcard_unrolled. Qed.

Lemma intermediate_wildcard_visits_every_child_witness :
  redactWildcardPath (VRef 0) (["a"] ++ "*" :: ["b"]) (CensorVal (VStr "[REDACTED]"))
    "a.*.b" (State heap_mixed [])
  = for_each (branch_keys heap_mixed (VRef 1))
      (redact_branch (CensorVal (VStr "[REDACTED]")) ["a"] ["b"] (VRef 1))
      (State heap_mixed []).
Proof.
  apply intermediate_wildcard_visits_every_child;
    [reflexivity | discriminate | reflexivity | reflexivity].
Defined.

(** ** Copies and the caller's objects *)






(** ** A serializer that is not a function *)

Lemma deliver_fallback (cfg : config) (x : val) (cloned original : val) :
  cfg_serialize cfg = SerializeVal x -> x <> VBool false ->
  deliver cfg cloned original
  = deliver (Config (cfg_paths cfg) (cfg_censor cfg) (SerializeFun JSON_stringify)
               (cfg_strict cfg)) cloned original.
Proof.
  intros Hs Hx. unfold deliver. rewrite Hs. cbn [cfg_serialize].
  destruct x as [| |[|]| | |]; try reflexivity. now destruct Hx.
Qed.

(** On an object the strict-mode guard of [redact] is not taken. *)
Lemma redact_object (cfg : config) (fuel : nat) (v : val) (st : state) :
  is_object (st_heap st) v = true ->
  redact cfg fuel v st
  = (let* cloned := deepClone fuel v in
     let* original := deepClone fuel v in
     let* _ := redactPaths cloned (cfg_paths cfg) (cfg_censor cfg) in
     deliver cfg cloned original) st.
Proof.
  intros Hobj.
  destruct (is_object_ref _ _ Hobj) as [l ->].
  assert (Hty : typeof (st_heap st) (VRef l) = TyObject).
  { unfold is_object in Hobj. now apply bool_decide_eq_true in Hobj. }
  unfold redact.
  unfold bind at 1, reading at 1. rewrite Hty.
  rewrite (bool_decide_eq_false_2 (VRef l = VNull)) by discriminate.
  rewrite (bool_decide_eq_true_2 (TyObject = TyObject)) by reflexivity.
  rewrite andb_false_r. reflexivity.
Qed.

(** X19.  A [serialize] option that is neither a function nor [false]
    (say [true], [null] or a string) is not an error for an object input:
    the result is encoded with [JSON.stringify], as with the default. *)
Theorem non_function_serializer_falls_back_to_JSON (cfg : config) (fuel : nat)
    (v x : val) (st : state) :
  cfg_serialize cfg = SerializeVal x -> x <> VBool false ->
  is_object (st_heap st) v = true ->
  redact cfg fuel v st
  = redact (Config (cfg_paths cfg) (cfg_censor cfg) (SerializeFun JSON_stringify)
              (cfg_strict cfg)) fuel v st.
Proof.
  intros Hs Hx Hobj.
  rewrite !redact_object by exact Hobj. cbn [cfg_paths cfg_censor].
  apply bind_ext. intros cloned st1.
  apply bind_ext. intros original st2.
  apply bind_ext. intros _ st3.
  now rewrite (deliver_fallback cfg x).
Qed.

Lemma non_function_serializer_falls_back_to_JSON_witness :
  redact (Config [PathStr "secret"] (CensorVal (VStr "[REDACTED]"))
            (SerializeVal (VBool true)) true) 2 (VRef 0) (State heap_secret [])
  = redact (Config [PathStr "secret"] (CensorVal (VStr "[REDACTED]"))
              (SerializeFun JSON_stringify) true) 2 (VRef 0) (State heap_secret []).
Proof.
  apply (non_function_serializer_falls_back_to_JSON
           (Config [PathStr "secret"] (CensorVal (VStr "[REDACTED]"))
              (SerializeVal (VBool true)) true) 2 (VRef 0) (VBool true));
    [reflexivity | discriminate | reflexivity].
Defined.

(** ** Primitives without strict mode *)

Lemma redactPaths_scalar_wildcards (root : val) (c : censor_t) (ps : list string) :
  is_scalar root = true ->
  Forall (fun p => includes_wildcard (parsePath p) = true) ps ->
  forall st, redactPaths root (map PathStr ps) c st = (Ret tt, st).
Proof.
  intros Hs Hall. induction Hall as [|p ps Hp _ IH]; intros st; [reflexivity|].
  unfold redactPaths. cbn [map for_each].
  unfold bind at 1. unfold redact_one at 1.
  unfold bind at 1, reading at 1. cbn [parse_entry]. rewrite Hp.
  rewrite redactWildcardPath_scalar by exact Hs.
  apply IH.
Qed.

(** X20.  Without strict mode a primitive input only makes [redact] throw
    when some configured path has no wildcard: when every path has one (or
    there is no path at all) nothing is redacted and the serializer is
    handed the primitive itself. *)
Theorem non_strict_scalar_with_wildcards_only (cfg : config) (ps : list string)
    (fuel : nat) (v : val) (st : state) (f : heap -> val -> outcome val) :
  cfg_strict cfg = false ->
  cfg_paths cfg = map PathStr ps ->
  Forall (fun p => includes_wildcard (parsePath p) = true) ps ->
  cfg_serialize cfg = SerializeFun f ->
  is_scalar v = true ->
  0 < fuel ->
  redact cfg fuel v st = (f (st_heap st) v, st).
Proof.
  intros Hstrict Hpaths Hall Hser Hs Hfuel.
  destruct fuel as [|fuel]; [lia|].
  unfold redact. rewrite Hstrict, Hpaths.
  unfold bind at 1, reading at 1. cbn [andb]. unfold bind at 1, ret at 1.
  unfold bind at 1. rewrite deepClone_scalar by exact Hs.
  unfold bind at 1. rewrite deepClone_scalar by exact Hs.
  unfold bind at 1. rewrite redactPaths_scalar_wildcards by assumption.
  unfold deliver. now rewrite Hser.
Qed.

Lemma non_strict_scalar_with_wildcards_only_witness :
  redact (Config [PathStr "a.*"; PathStr "*.b"] (CensorVal (VStr "[REDACTED]"))
            (SerializeFun JSON_stringify) false) 1 (VNum 42) (State [] [])
  = (JSON_stringify [] (VNum 42), State [] []).
Proof.
  apply (non_strict_scalar_with_wildcards_only
           (Config [PathStr "a.*"; PathStr "*.b"] (CensorVal (VStr "[REDACTED]"))
              (SerializeFun JSON_stringify) false) ["a.*"; "*.b"] 1 (VNum 42) (State [] []));
    try reflexivity; [|lia].
  repeat constructor.
Defined.

(** ** Reported paths, parsed again *)

Lemma has_char_app (c : ascii) (a b : string) :
  has_char c (a +:+ b) = has_char c a || has_char c b.
Proof.
  induction a as [|x a IH]; [reflexivity|].
  rewrite append_cons. unfold has_char in *. simpl. now rewrite IH, orb_assoc.
Qed.

Lemma parsePath_plain (s : string) : plain_segment s = true -> parsePath s = [s].
Proof.
  unfold plain_segment. intros H.
  apply andb_true_iff in H as [H Hb]. apply andb_true_iff in H as [Hn Hd].
  apply negb_true_iff in Hb, Hd.
  unfold parsePath, parse_init. rewrite scan_dotted by assumption.
  rewrite append_nil_l. cbn [ps_parts ps_current]. unfold flush.
  unfold nonempty in Hn. apply negb_true_iff in Hn. now rewrite Hn.
Qed.

Lemma join_dot_no_bracket (xs : list string) :
  Forall (fun s => plain_segment s = true) xs -> has_char "[" (join_dot xs) = false.
Proof.
  induction 1 as [|x xs Hx Hxs IH]; [reflexivity|].
  assert (Hb : has_char "[" x = false).
  { unfold plain_segment in Hx. apply andb_true_iff in Hx as [_ Hb].
    now apply negb_true_iff in Hb. }
  destruct xs as [|y xs]; [exact Hb|].
  change (join_dot (x :: y :: xs)) with (x +:+ "." +:+ join_dot (y :: xs)).
  rewrite !has_char_app, Hb, IH. reflexivity.
Qed.

Lemma parsePath_join_dot (xs : list string) :
  Forall (fun s => plain_segment s = true) xs -> parsePath (join_dot xs) = xs.
Proof.
  induction 1 as [|x xs Hx Hxs IH]; [reflexivity|].
  destruct xs as [|y xs]; [now apply parsePath_plain|].
  change (join_dot (x :: y :: xs)) with (x +:+ "." +:+ join_dot (y :: xs)).
  rewrite parsePath_dot.
  - now rewrite parsePath_plain, IH.
  - unfold plain_segment in Hx. apply andb_true_iff in Hx as [_ Hb].
    now apply negb_true_iff in Hb.
Qed.

(** X21.  The path an intermediate wildcard reports to a censor function,
    the segments joined with dots, parses back to the segments that were
    visited as long as every one of them is plain (not empty, no dot, no
    opening bracket).  A key that holds a dot breaks the round trip: the
    path reported for the key [x.y] under [a.*.b] has four segments. *)
Theorem reported_path_parses_back (pre post : list string) (key : string) :
  Forall (fun s => plain_segment s = true) (pre ++ key :: post) ->
  (exists s, branch_path pre post key = VStr s /\ parsePath s = pre ++ key :: post)
  /\ (exists s, branch_path ["a"] ["b"] "x.y" = VStr s
                /\ parsePath s = ["a"; "x"; "y"; "b"]).
Proof.
  intros Hall. split; [|eexists; split; reflexivity].
  eexists. split; [reflexivity|].
  apply Forall_app in Hall as [Hpre Hrest].
  apply Forall_cons in Hrest as [Hkey Hpost].
  assert (Hhead : Forall (fun s => plain_segment s = true) (pre ++ [key])).
  { apply Forall_app. split; [exact Hpre | now apply Forall_singleton]. }
  rewrite parsePath_dot by now apply join_dot_no_bracket.
  rewrite !parsePath_join_dot by assumption.
  now rewrite <- app_assoc.
Qed.

Lemma reported_path_parses_back_witness :
  exists s, branch_path ["users"] ["password"] "0" = VStr s
            /\ parsePath s = ["users"] ++ "0" :: ["password"].
Proof.
  refine (proj1 (reported_path_parses_back ["users"] ["password"] "0" _)).
  repeat constructor.
Defined.

(** ** Paths below a redacted value *)

Lemma is_object_layout (h h' : heap) (v : val) :
  map layout h = map layout h' -> is_object h v = is_object h' v.
Proof.
  intros H. destruct v as [| | | | |l]; try reflexivity.
  unfold is_object, typeof.
  pose proof (lookup_obj_layout h h' l H) as E. unfold layout in E.
  injection E as E _.
  destruct (oshape (lookup_obj h l)), (oshape (lookup_obj h' l));
    try discriminate; reflexivity.
Qed.

Lemma write_keeps_layout (h : heap) (lp : loc) (key : string) (x : val) :
  has_own (lookup_obj h lp) key = true ->
  map layout (<[lp := set_own (lookup_obj h lp) key x]> h) = map layout h.
Proof.
  intros Hk.
  exact (steady_set_prop (map layout h) h lp key x eq_refl Hk (State h []) eq_refl).
Qed.

Lemma path_resolves_scalar (h : heap) (c : val) (q : list string) :
  is_scalar c = true -> q <> [] -> path_resolves h c q = false.
Proof. intros Hc Hq. destruct q; [contradiction|]. now destruct c. Qed.

Lemma path_resolves_below_write (h : heap) (key : string) (c : val) (lp : loc)
    (q : list string) (pre : list string) :
  is_scalar c = true -> q <> [] ->
  forall root,
    path_resolves h root (pre ++ [key]) = true ->
    NoDup (trail h root (pre ++ [key])) ->
    getValue h root pre = Ret (VRef lp) ->
    path_resolves (<[lp := set_own (lookup_obj h lp) key c]> h) root
      ((pre ++ [key]) ++ q) = false.
Proof.
  intros Hc Hq. induction pre as [|key0 rest IH]; intros root Hres Hnd Hg.
  - simpl in Hg. injection Hg as ->.
    apply path_resolves_cons in Hres as (l & [= <-] & _ & Hk & _).
    cbn [app path_resolves].
    rewrite lookup_obj_insert by (now apply has_own_allocated in Hk).
    rewrite get_set_own_same, path_resolves_scalar by assumption.
    now rewrite andb_false_r.
  - rewrite <- !app_comm_cons in Hres, Hnd |- *.
    apply path_resolves_cons in Hres as (l & -> & _ & Hk & Hrest).
    cbn [trail] in Hnd. apply NoDup_cons in Hnd as [Hfresh Hnd].
    cbn [getValue is_nullish get_prop] in Hg.
    destruct (descend_resolved h key rest _ Hrest) as (lp' & _ & Hg' & Hl & _).
    rewrite Hg in Hg'. injection Hg' as <-.
    change ((key0 :: rest ++ [key]) ++ q) with (key0 :: (rest ++ [key]) ++ q).
    cbn [path_resolves]. rewrite lookup_obj_insert_ne.
    + rewrite (IH _ Hrest Hnd Hg). now rewrite andb_false_r.
    + intros ->. apply Hfresh. now apply last_Some_elem_of.
Qed.

(** X22.  The order of overlapping paths matters.  Once a path has been
    redacted to a scalar, a later path that goes below it finds no object
    there and changes nothing: with the paths [a] and then [a.b], the
    value at [a] stays the censor. *)
Theorem path_below_a_redacted_value_is_skipped (h : heap) (calls : list (val * val))
    (root : val) (pre q : list string) (key : string) (c x : val) :
  path_resolves h root (pre ++ [key]) = true ->
  key <> "*" ->
  NoDup (trail h root (pre ++ [key])) ->
  is_scalar c = true ->
  q <> [] -> last q <> Some "*" ->
  exists h' b,
    setValue root (pre ++ [key]) c (State h calls) = (Ret true, State h' calls)
    /\ setValue root ((pre ++ [key]) ++ q) x (State h' calls)
       = (Ret b, State h' calls)
    /\ getValue h' root (pre ++ [key]) = Ret c.
Proof.
  intros Hres Hstar Hnd Hc Hq Hlast.
  destruct (setValue_resolved h calls root pre key c Hres Hstar) as (lp & Hg & Hset).
  destruct (descend_resolved h key pre root Hres) as (lp' & _ & Hg' & _ & Hk).
  rewrite Hg in Hg'. injection Hg' as <-.
  set (h' := <[lp := set_own (lookup_obj h lp) key c]> h) in *.
  assert (Hobj : is_object h' root = true).
  { rewrite (is_object_layout h' h) by now apply write_keeps_layout.
    destruct (pre ++ [key]) as [|k0 r0] eqn:E; [now destruct pre|].
    now apply path_resolves_cons in Hres as (l & _ & Ho & _). }
  assert (Hlast' : last ((pre ++ [key]) ++ q) <> Some "*").
  { destruct q as [|k1 q1]; [contradiction|]. now rewrite last_app_cons. }
  pose proof (path_resolves_below_write h key c lp q pre Hc Hq root Hres Hnd Hg) as Hno.
  fold h' in Hno.
  destruct (setValue_unresolved h' calls _ x root Hobj Hlast' Hno) as [b Hb].
  exists h', b. split; [exact Hset|]. split; [exact Hb|].
  now apply getValue_after_write.
Qed.

Lemma path_below_a_redacted_value_is_skipped_witness :
  exists h' b,
    setValue (VRef 0) ([] ++ ["a"]) (VStr "[REDACTED]") (State heap_a_bc [])
    = (Ret true, State h' [])
    /\ setValue (VRef 0) (([] ++ ["a"]) ++ ["b"]) (VStr "[REDACTED]") (State h' [])
       = (Ret b, State h' [])
    /\ getValue h' (VRef 0) ([] ++ ["a"]) = Ret (VStr "[REDACTED]").
Proof.
  apply path_below_a_redacted_value_is_skipped;
    [reflexivity | discriminate | | reflexivity | discriminate | discriminate].
  change (NoDup [0]). apply NoDup_singleton.
Defined.

(** ** Walks only depend on the objects they pass through *)

Lemma getValue_scalar (h h' : heap) (parts : list string) :
  forall v, is_scalar v = true -> getValue h' v parts = getValue h v parts.
Proof.
  induction parts as [|key rest IH]; intros v Hv; [reflexivity|].
  destruct v as [| |b|n|s|l]; try discriminate; try reflexivity; simpl.
  - apply (IH VUndef). reflexivity.
  - apply (IH VUndef). reflexivity.
  - apply IH. unfold char_at.
    destruct (index_of_key key); [|reflexivity]. now destruct (String.get _ s).
Qed.

Lemma walk_agree (h h' : heap) (parts : list string) :
  forall v,
    (forall loc, loc ∈ trail h v parts -> lookup_obj h' loc = lookup_obj h loc) ->
    trail h' v parts = trail h v parts
    /\ getValue h' v parts = getValue h v parts
    /\ path_resolves h' v parts = path_resolves h v parts.
Proof.
  induction parts as [|key rest IH]; intros v Hag; [now repeat split|].
  destruct v as [| |b|n|s|l].
  1-5: repeat split; try (now apply (getValue_scalar h h' (key :: rest))).
  assert (Hl : lookup_obj h' l = lookup_obj h l).
  { apply Hag. cbn [trail]. apply list_elem_of_here. }
  destruct (IH (get_own (lookup_obj h l) key)) as (Ht & Hg & Hr).
  { intros loc Hin. apply Hag. cbn [trail]. now apply list_elem_of_further. }
  cbn [trail getValue path_resolves is_nullish get_prop]. rewrite Hl.
  repeat split; [now rewrite Ht | exact Hg |].
  rewrite Hr. f_equal. f_equal. unfold is_object, typeof. now rewrite Hl.
Qed.

Lemma trail_snoc (h : heap) (key : string) (pre : list string) :
  forall root lp,
    path_resolves h root (pre ++ [key]) = true ->
    getValue h root pre = Ret (VRef lp) ->
    trail h root (pre ++ [key]) = trail h root pre ++ [lp].
Proof.
  induction pre as [|key0 rest IH]; intros root lp Hres Hg.
  - simpl in Hg. injection Hg as ->. reflexivity.
  - rewrite <- app_comm_cons in Hres |- *.
    apply path_resolves_cons in Hres as (l & -> & _ & _ & Hrest).
    cbn [getValue is_nullish get_prop] in Hg.
    cbn [trail]. now rewrite (IH _ _ Hrest Hg).
Qed.

Lemma getValue_app (h : heap) (p q : list string) :
  forall v x, getValue h v p = Ret x -> getValue h v (p ++ q) = getValue h x q.
Proof.
  induction p as [|key p IH]; intros v x; simpl.
  - now intros [= ->].
  - destruct (is_nullish v).
    + intros [= <-]. now rewrite getValue_undefined.
    + destruct (get_prop h v key); try discriminate. apply IH.
Qed.

(** ** An intermediate wildcard over separate branches *)

Lemma trails_app (h : heap) (l : loc) (post a b : list string) :
  trails h l post (a ++ b) = trails h l post a ++ trails h l post b.
Proof. induction a as [|k a IH]; simpl; [reflexivity|]. now rewrite IH, app_assoc. Qed.

Lemma parent_of_resolved (h : heap) (child : val) (ppre : list string) (pkey : string) :
  path_resolves h child (ppre ++ [pkey]) = true ->
  exists lp,
    parent_of h child (ppre ++ [pkey]) = lp
    /\ getValue h child ppre = Ret (VRef lp)
    /\ trail h child (ppre ++ [pkey]) = trail h child ppre ++ [lp]
    /\ has_own (lookup_obj h lp) pkey = true.
Proof.
  intros Hres.
  destruct (descend_resolved h pkey ppre child Hres) as (lp & _ & Hg & Hl & Hk).
  exists lp. unfold parent_of. rewrite Hl. repeat split; auto.
  now apply trail_snoc.
Qed.

Lemma written_in_trails (h : heap) (l : loc) (ppre : list string) (pkey : string)
    (keys : list string) :
  Forall (fun key => path_resolves h (child_of h l key) (ppre ++ [pkey]) = true) keys ->
  forall loc, loc ∈ written h l (ppre ++ [pkey]) keys -> loc ∈ trails h l (ppre ++ [pkey]) keys.
Proof.
  induction 1 as [|k ks Hk _ IH]; intros loc Hin; simpl in *.
  - now apply elem_of_nil in Hin.
  - apply elem_of_cons in Hin as [->|Hin].
    + destruct (parent_of_resolved _ _ _ _ Hk) as (lp & -> & _ & -> & _).
      apply elem_of_app. left. apply elem_of_app. right. apply list_elem_of_here.
    + apply elem_of_app. right. now apply IH.
Qed.

(** Two children's walks being disjoint, a written object met on a child's
    walk is that child's own. *)
Lemma written_on_own_trail (h : heap) (l : loc) (ppre : list string) (pkey : string)
    (keys : list string) :
  Forall (fun key => path_resolves h (child_of h l key) (ppre ++ [pkey]) = true) keys ->
  NoDup (trails h l (ppre ++ [pkey]) keys) ->
  forall key loc,
    key ∈ keys ->
    loc ∈ trail h (child_of h l key) (ppre ++ [pkey]) ->
    loc ∈ written h l (ppre ++ [pkey]) keys ->
    loc = parent_of h (child_of h l key) (ppre ++ [pkey]).
Proof.
  induction 1 as [|k ks Hk Hks IH]; intros Hnd key loc Hkey Hloc Hw.
  - now apply elem_of_nil in Hkey.
  - simpl in Hnd. apply NoDup_app in Hnd as (_ & Hdisj & Hnd).
    simpl in Hw. apply elem_of_cons in Hw as [Hw|Hw];
      apply elem_of_cons in Hkey as [->|Hkey].
    + exact Hw.
    + exfalso. subst loc.
      destruct (parent_of_resolved _ _ _ _ Hk) as (lp & Hp & _ & Ht & _).
      apply (Hdisj lp).
      * rewrite Ht. apply elem_of_app. right. apply list_elem_of_here.
      * rewrite <- Hp. clear -Hkey Hloc.
        induction ks as [|k' ks IH]; [now apply elem_of_nil in Hkey|].
        simpl. apply elem_of_app. apply elem_of_cons in Hkey as [->|Hkey]; auto.
    + exfalso. apply (Hdisj loc Hloc). now apply written_in_trails.
    + now apply IH.
Qed.

Lemma branch_loop (h : heap) (l : loc) (pre ppre : list string) (pkey : string)
    (c : val) (todo : list string) :
  pkey <> "*" ->
  forall done hi calls,
    branches_done h l (ppre ++ [pkey]) pkey c done hi ->
    Forall (fun key => path_resolves h (child_of h l key) (ppre ++ [pkey]) = true)
           (done ++ todo) ->
    NoDup (l :: trails h l (ppre ++ [pkey]) (done ++ todo)) ->
    exists h',
      for_each todo (redact_branch (CensorVal c) pre (ppre ++ [pkey]) (VRef l))
        (State hi calls)
      = (Ret tt, State h' calls)
      /\ branches_done h l (ppre ++ [pkey]) pkey c (done ++ todo) h'.
Proof.
  intros Hstar. induction todo as [|k rest IH]; intros done hi calls Hinv Hres Hnd.
  - exists hi. now rewrite app_nil_r.
  - pose proof Hres as Hres'. apply Forall_app in Hres' as [Hres_done Hres_todo].
    apply Forall_cons in Hres_todo as [Hres_k _].
    destruct (parent_of_resolved _ _ _ _ Hres_k) as (lp & Hp & Hg & Ht & Hk).
    pose proof Hnd as Hnd'. apply NoDup_cons in Hnd' as [Hl Hnd'].
    rewrite trails_app in Hl, Hnd'. cbn [trails] in Hl, Hnd'.
    apply NoDup_app in Hnd' as (_ & Hdisj & _).
    destruct Hinv as [Hsame Hdone].
    assert (Hl_un : lookup_obj hi l = lookup_obj h l).
    { apply Hsame. intros Hin. apply Hl, elem_of_app. left.
      now apply written_in_trails. }
    assert (Htrail_un : forall loc, loc ∈ trail h (child_of h l k) (ppre ++ [pkey]) ->
                          loc ∉ written h l (ppre ++ [pkey]) done).
    { intros loc Hin Hw. apply (Hdisj loc); [now apply written_in_trails|].
      apply elem_of_app. now left. }
    assert (Hag : forall loc, loc ∈ trail h (child_of h l k) (ppre ++ [pkey]) ->
                    lookup_obj hi loc = lookup_obj h loc).
    { intros loc Hin. now apply Hsame, Htrail_un. }
    destruct (walk_agree h hi (ppre ++ [pkey]) _ Hag) as (_ & _ & Hr).
    rewrite Hres_k in Hr.
    destruct (setValue_resolved hi calls (child_of h l k) ppre pkey c Hr Hstar)
      as (lp' & Hg' & Hset).
    assert (lp' = lp) as ->.
    { destruct (walk_agree h hi ppre (child_of h l k)) as (_ & Hgv & _).
      - intros loc Hin. apply Hag. rewrite Ht. apply elem_of_app. now left.
      - rewrite Hgv, Hg in Hg'. now injection Hg'. }
    assert (Hlp : lp ∈ trail h (child_of h l k) (ppre ++ [pkey])).
    { rewrite Ht. apply elem_of_app. right. apply list_elem_of_here. }
    set (h1 := <[lp := set_own (lookup_obj hi lp) pkey c]> hi) in *.
    destruct (IH (done ++ [k]) h1 calls) as (h' & Hrun & Hinv').
    + split.
      * intros loc Hloc. unfold written in Hloc. rewrite map_app in Hloc.
        cbn [map] in Hloc. rewrite Hp in Hloc.
        apply not_elem_of_app in Hloc as [Hloc1 Hloc2].
        rewrite list_elem_of_singleton in Hloc2.
        unfold h1. rewrite lookup_obj_insert_ne by exact Hloc2. now apply Hsame.
      * intros key Hkey. apply elem_of_app in Hkey as [Hkey|Hkey].
        -- unfold h1. rewrite lookup_obj_insert_ne; [now apply Hdone|].
           intros E. apply (Htrail_un lp Hlp). rewrite <- E.
           unfold written.
           exact (list_elem_of_fmap_2
                    (fun key => parent_of h (child_of h l key) (ppre ++ [pkey]))
                    done key Hkey).
        -- apply list_elem_of_singleton in Hkey as ->. rewrite Hp.
           unfold h1. rewrite lookup_obj_insert; [apply get_set_own_same|].
           apply (has_own_allocated hi lp pkey). now rewrite (Hag lp Hlp).
    + now rewrite <- app_assoc.
    + now rewrite <- app_assoc.
    + exists h'. split; [|now rewrite <- app_assoc in Hinv'].
      cbn [for_each]. unfold bind at 1. unfold redact_branch at 1.
      unfold bind at 1, reading at 1. cbn [st_heap get_prop]. rewrite Hl_un.
      fold (child_of h l k). unfold bind at 1. cbn [actual_censor]. unfold ret at 1.
      unfold bind at 1. rewrite Hset. unfold ret at 1. exact Hrun.
Qed.

(** X23.  An intermediate wildcard over separate branches redacts every
    one of them.  When the segments after the star resolve in every child
    of the container and the objects passed on the way are pairwise
    distinct (no two branches share an object), [redactWildcardPath]
    returns, every child then holds the censor at those segments, and the
    only objects written are the ones holding the last segment. *)
Theorem intermediate_wildcard_redacts_every_branch (h : heap)
    (calls : list (val * val)) (root : val) (pre ppre : list string) (pkey : string)
    (c : val) (path : string) (l : loc) :
  includes_wildcard pre = false ->
  getValue h root pre = Ret (VRef l) ->
  pkey <> "*" ->
  Forall (fun key => path_resolves h (child_of h l key) (ppre ++ [pkey]) = true)
         (branch_keys h (VRef l)) ->
  NoDup (visited h root pre l (ppre ++ [pkey]) (branch_keys h (VRef l))) ->
  exists h',
    redactWildcardPath root (pre ++ "*" :: ppre ++ [pkey]) (CensorVal c) path
      (State h calls)
    = (Ret tt, State h' calls)
    /\ Forall (fun key => getValue h' root (pre ++ key :: ppre ++ [pkey]) = Ret c)
              (branch_keys h (VRef l))
    /\ forall loc, loc ∉ written h l (ppre ++ [pkey]) (branch_keys h (VRef l)) ->
                   lookup_obj h' loc = lookup_obj h loc.
Proof.
  intros Hpre Hget Hstar Hres Hnd.
  set (keys := branch_keys h (VRef l)) in *.
  unfold visited in Hnd. apply NoDup_app in Hnd as (_ & Hdisj & Hnd).
  destruct (branch_loop h l pre ppre pkey c keys Hstar [] h calls) as (h' & Hrun & Hinv).
  { split; [reflexivity | intros key Hkey; now apply elem_of_nil in Hkey]. }
  { exact Hres. }
  { exact Hnd. }
  cbn [app] in Hinv. destruct Hinv as [Hsame Hdone].
  exists h'. split; [|split; [|exact Hsame]].
  - rewrite (intermediate_wildcard_unrolled h calls root (VRef l) pre (ppre ++ [pkey]) path
               (CensorVal c) Hpre); auto.
    now destruct ppre.
  - apply NoDup_cons in Hnd as [Hl Hnd].
    assert (Hroot : getValue h' root pre = Ret (VRef l)).
    { destruct (walk_agree h h' pre root) as (_ & Hgv & _); [|now rewrite Hgv].
      intros loc Hin. apply Hsame. intros Hw.
      apply (Hdisj loc Hin). apply list_elem_of_further.
      now apply written_in_trails. }
    assert (Hl_un : lookup_obj h' l = lookup_obj h l).
    { apply Hsame. intros Hw. apply Hl. now apply written_in_trails. }
    apply Forall_forall. intros key Hkey.
    pose proof (proj1 (Forall_forall _ _) Hres key Hkey) as Hres_k.
    destruct (parent_of_resolved _ _ _ _ Hres_k) as (lp & Hp & Hg & Ht & Hk).
    rewrite (getValue_app h' pre _ root (VRef l) Hroot).
    cbn [getValue is_nullish get_prop]. rewrite Hl_un. fold (child_of h l key).
    assert (Hwalk : getValue h' (child_of h l key) ppre = Ret (VRef lp)).
    { destruct (walk_agree h h' ppre (child_of h l key)) as (_ & Hgv & _);
        [|now rewrite Hgv].
      intros loc Hin. apply Hsame. intros Hw.
      assert (Hin' : loc ∈ trail h (child_of h l key) (ppre ++ [pkey])).
      { rewrite Ht. apply elem_of_app. now left. }
      pose proof (written_on_own_trail h l ppre pkey keys Hres Hnd key loc Hkey Hin' Hw)
        as E.
      rewrite Hp in E. subst loc.
      assert (Hnd_k : NoDup (trail h (child_of h l key) (ppre ++ [pkey]))).
      { clear -Hnd Hkey. induction keys as [|k ks IH]; [now apply elem_of_nil in Hkey|].
        simpl in Hnd. apply NoDup_app in Hnd as (Hk & _ & Hks).
        apply elem_of_cons in Hkey as [->|Hkey]; auto. }
      rewrite Ht in Hnd_k.
      apply NoDup_app in Hnd_k as (_ & Hd & _).
      apply (Hd lp Hin). apply list_elem_of_here. }
    rewrite (getValue_app h' ppre [pkey] _ (VRef lp) Hwalk).
    cbn [getValue is_nullish get_prop]. f_equal.
    specialize (Hdone key Hkey). now rewrite Hp in Hdone.
Qed.

Lemma intermediate_wildcard_redacts_every_branch_witness :
  exists h',
    redactWildcardPath (VRef 0) (["a"] ++ "*" :: [] ++ ["b"]) (CensorVal (VStr "[REDACTED]"))
      "a.*.b" (State heap_a_xy [])
    = (Ret tt, State h' [])
    /\ Forall (fun key => getValue h' (VRef 0) (["a"] ++ key :: [] ++ ["b"])
                          = Ret (VStr "[REDACTED]"))
              (branch_keys heap_a_xy (VRef 1))
    /\ forall loc, loc ∉ written heap_a_xy 1 ([] ++ ["b"]) (branch_keys heap_a_xy (VRef 1)) ->
                   lookup_obj h' loc = lookup_obj heap_a_xy loc.
Proof.
  apply intermediate_wildcard_redacts_every_branch;
    [reflexivity | reflexivity | discriminate | |].
  - change (Forall (fun key => path_resolves heap_a_xy (child_of heap_a_xy 1 key) ["b"] = true)
              ["x"; "y"]).
    repeat constructor.
  - change (NoDup [0; 1; 2; 3]).
    repeat (apply NoDup_cons; split; [rewrite ?elem_of_cons, elem_of_nil; intuition discriminate|]).
    apply NoDup_nil_2.
Defined.
